(** * docsAPI: retrieval pipeline of the document question-answering service

    A shallow embedding of the Python sources
    - [utils/chunker.py]      (module [Chunker]),
    - [utils/faiss_index.py]  (modules [Faiss] and [FaissIndex], and module
      [FaissApi]),
    - [utils/llm.py]          (modules [Llm] and [LlmJson]),
    - [utils/extractor.py] and [app.py] (module [App]),
    followed by the properties of the specification settled against it.

    Conventions.  Python [int] is [Z]; [str] is [string], a character being a
    code point below 256; a [list] is a [list]; a [dict] with a fixed set of
    keys is a record, a parsed JSON object an association list.  An
    exception is a value of an error type.

    FAISS is not among the sources.  Module [FaissApi] embeds
    [utils/faiss_index.py] over the library as it is: the [float32] numbers,
    the conversion to them, the normalisation and the search are parameters,
    and nothing is assumed of them.  Modules [Faiss] and [FaissIndex] embed
    the same file over one such library, in which the numbers are exact
    reals; module [App] builds on it. *)

From Stdlib Require Import QArith.
From Stdlib Require Import ZArith List Bool Ascii String DecimalString Lia.
From Stdlib Require Import Reals Lra Psatz.
From Stdlib Require Import Permutation Sorted.
Import ListNotations.

Local Open Scope Z_scope.

(* ================================================================== *)
(** ** Python built-ins used by the sources *)

Module Py.

(** [str.isspace] on one character ([Py_UNICODE_ISSPACE]), which is also the
    class [\s] of [re] on [str] patterns: TAB, LF, VT, FF, CR, the separators
    FS, GS, RS, US, the space, NEL (0x85) and the no-break space (0xA0). *)
Definition isspace (c : ascii) : bool :=
  let n := nat_of_ascii c in
  ((9 <=? n) && (n <=? 13) || (28 <=? n) && (n <=? 32)
   || (n =? 133) || (n =? 160))%nat.

Fixpoint lstrip (s : string) : string :=
  match s with
  | EmptyString => EmptyString
  | String c r => if isspace c then lstrip r else s
  end.

Fixpoint rstrip (s : string) : string :=
  match s with
  | EmptyString => EmptyString
  | String c r =>
      match rstrip r with
      | EmptyString => if isspace c then EmptyString else String c EmptyString
      | r' => String c r'
      end
  end.

(** [s.strip()] *)
Definition strip (s : string) : string := rstrip (lstrip s).

(** [re.sub(r'\s+', ' ', s)]: every maximal run of whitespace becomes one
    space.  [in_run] tells that the previous character was whitespace. *)
Fixpoint sub_ws_run (in_run : bool) (s : string) : string :=
  match s with
  | EmptyString => EmptyString
  | String c r =>
      if isspace c
      then (if in_run then sub_ws_run true r
            else String " " (sub_ws_run true r))
      else String c (sub_ws_run false r)
  end.

Definition re_sub_ws (s : string) : string := sub_ws_run false s.

(** [s.split()]: the maximal runs of non-whitespace characters.  [cur] is
    the word being read. *)
Fixpoint split_from (cur : string) (s : string) : list string :=
  match s with
  | EmptyString =>
      match cur with EmptyString => [] | _ => [cur] end
  | String c r =>
      if isspace c
      then match cur with
           | EmptyString => split_from EmptyString r
           | _ => cur :: split_from EmptyString r
           end
      else split_from (cur ++ String c EmptyString) r
  end.

Definition split (s : string) : list string := split_from EmptyString s.

(** [sep.join(l)] *)
Fixpoint join (sep : string) (l : list string) : string :=
  match l with
  | [] => EmptyString
  | [w] => w
  | w :: r => w ++ sep ++ join sep r
  end.

(** [len(l)] *)
Definition len {A : Type} (l : list A) : Z := Z.of_nat (List.length l).

(** A slice bound as Python resolves it against a sequence of length [n]:
    a negative bound counts from the end, and the result is clamped to
    [0 .. n]. *)
Definition slice_bound (n i : Z) : Z :=
  if i <? 0 then Z.max 0 (i + n) else Z.min i n.

(** [l[start:stop]] *)
Definition slice {A : Type} (l : list A) (start stop : Z) : list A :=
  let a := slice_bound (len l) start in
  let b := slice_bound (len l) stop in
  firstn (Z.to_nat (b - a)) (skipn (Z.to_nat a) l).

(** [s[start:stop]] on a string *)
Definition str_slice (s : string) (start stop : Z) : string :=
  string_of_list_ascii (slice (list_ascii_of_string s) start stop).

(** [len(s)] on a string *)
Definition str_len (s : string) : Z := Z.of_nat (String.length s).

(** [s.find(c)] for a one-character needle: the first index, or -1. *)
Fixpoint find_char (c : ascii) (s : string) : Z :=
  match s with
  | EmptyString => -1
  | String a r =>
      if Ascii.eqb a c then 0
      else let i := find_char c r in if i <? 0 then -1 else i + 1
  end.

(** [s.rfind(c)] for a one-character needle: the last index, or -1. *)
Fixpoint rfind_char (c : ascii) (s : string) : Z :=
  match s with
  | EmptyString => -1
  | String a r =>
      let i := rfind_char c r in
      if 0 <=? i then i + 1
      else if Ascii.eqb a c then 0 else -1
  end.

(** [str.lower] on one character, for code points below 256. *)
Definition lower_char (c : ascii) : ascii :=
  let n := nat_of_ascii c in
  if ((65 <=? n) && (n <=? 90)
      || (192 <=? n) && (n <=? 222) && negb (n =? 215))%nat
  then ascii_of_nat (n + 32) else c.

Fixpoint lower (s : string) : string :=
  match s with
  | EmptyString => EmptyString
  | String c r => String (lower_char c) (lower r)
  end.

(** [s.endswith(suffix)] *)
Definition endswith (s suffix : string) : bool :=
  let n := String.length s in
  let m := String.length suffix in
  (m <=? n)%nat && String.eqb (substring (n - m) m s) suffix.

End Py.

(* ================================================================== *)
(** ** utils/chunker.py *)

Module Chunker.
Import Py.

(** The dictionary built for one chunk. *)
Record Chunk := mkChunk {
  text : string;
  source : string;
  chunk_id : Z;
  start_word : Z;
  end_word : Z;
  word_count : Z
}.

(** The text as normalised before counting, and its words. *)
Definition normalize (text : string) : string := re_sub_ws (strip text).
Definition words_of (text : string) : list string := split (normalize text).

Section Loop.
Variables (words : list string) (source_file : string).
Variables (chunk_size overlap min_chunk_size : Z).

(** The [while start < len(words)] loop.  [fuel] bounds the number of
    iterations; [None] means the bound was reached before the loop
    ended. *)
Fixpoint chunk_loop (fuel : nat) (start chunk_id : Z) (chunks : list Chunk)
  : option (list Chunk) :=
  if start <? len words then
    match fuel with
    | O => None
    | S fuel' =>
        let end_ := Z.min (start + chunk_size) (len words) in
        let chunk_words := slice words start end_ in
        let '(chunks', chunk_id') :=
          if min_chunk_size <=? len chunk_words
          then (chunks ++ [mkChunk (join " " chunk_words) source_file
                             chunk_id start end_ (len chunk_words)],
                chunk_id + 1)
          else (chunks, chunk_id) in
        if len words <=? end_ then Some chunks'
        else chunk_loop fuel' (start + (chunk_size - overlap))
               chunk_id' chunks'
    end
  else Some chunks.

(** The dictionary the loop body builds at [start] when it keeps the
    window (a name for the proofs; [chunk_loop] is its own definition). *)
Definition window (chunk_id start : Z) : Chunk :=
  let end_ := Z.min (start + chunk_size) (len words) in
  mkChunk (join " " (slice words start end_)) source_file chunk_id start end_
    (len (slice words start end_)).

(** The loop as a relation between the state at the head of an iteration
    and the chunks appended from there on: one rule per path through the
    body. *)
Inductive loop_run : Z -> Z -> list Chunk -> Prop :=
| run_exit start chunk_id :
    len words <= start ->
    loop_run start chunk_id []
| run_break_kept start chunk_id :
    start < len words ->
    min_chunk_size <= word_count (window chunk_id start) ->
    len words <= end_word (window chunk_id start) ->
    loop_run start chunk_id [window chunk_id start]
| run_break_dropped start chunk_id :
    start < len words ->
    word_count (window chunk_id start) < min_chunk_size ->
    len words <= end_word (window chunk_id start) ->
    loop_run start chunk_id []
| run_next_kept start chunk_id rest :
    start < len words ->
    min_chunk_size <= word_count (window chunk_id start) ->
    end_word (window chunk_id start) < len words ->
    loop_run (start + (chunk_size - overlap)) (chunk_id + 1) rest ->
    loop_run start chunk_id (window chunk_id start :: rest)
| run_next_dropped start chunk_id rest :
    start < len words ->
    word_count (window chunk_id start) < min_chunk_size ->
    end_word (window chunk_id start) < len words ->
    loop_run (start + (chunk_size - overlap)) chunk_id rest ->
    loop_run start chunk_id rest.
End Loop.

(** [chunk_text(text, source_file, chunk_size, overlap, min_chunk_size)]
    with the loop run for at most [fuel] iterations. *)
Definition chunk_text_fuel (fuel : nat) (text source_file : string)
  (chunk_size overlap min_chunk_size : Z) : option (list Chunk) :=
  match strip text with
  | EmptyString => Some []
  | _ =>
      let text' := re_sub_ws (strip text) in
      let words := split text' in
      if len words <=? chunk_size then
        if min_chunk_size <=? len words
        then Some [mkChunk text' source_file 0 0 (len words) (len words)]
        else Some []
      else chunk_loop words source_file chunk_size overlap min_chunk_size
             fuel 0 0 []
  end.

(** The loop body runs at most once per word whenever it ends (lemma
    [chunk_text_iff_fuel] below), so [chunk_text] is the function itself:
    [None] stands for a call that never returns. *)
Definition chunk_text (text source_file : string)
  (chunk_size overlap min_chunk_size : Z) : option (list Chunk) :=
  chunk_text_fuel (List.length (words_of text)) text source_file
    chunk_size overlap min_chunk_size.

(** [text] is empty or consists of whitespace only. *)
Fixpoint whitespace_only (text : string) : bool :=
  match text with
  | EmptyString => true
  | String c r => isspace c && whitespace_only r
  end.

(** Word [p] lies in the range [[start_word, end_word)] of one of the
    chunks. *)
Definition covered (chunks : list Chunk) (p : Z) : Prop :=
  exists c, In c chunks /\ start_word c <= p < end_word c.

(** The ranges of the chunks cover the words [[0, W)] except possibly a
    trailing remainder of fewer than [M] words. *)
Definition covers_except_tail (chunks : list Chunk) (W M : Z) : Prop :=
  exists e, 0 <= e <= W /\ (e = W \/ W - e < M)
            /\ forall p, 0 <= p < e -> covered chunks p.

(** The data-model invariant of a chunk sequence: each range has as many
    words as the chunk counts, and the chunks appear by increasing start. *)
Definition chunk_invariant (chunks : list Chunk) : Prop :=
  Forall (fun c => end_word c - start_word c = word_count c) chunks
  /\ StronglySorted (fun a b => start_word a < start_word b) chunks.

(** The chunks start at the multiples of the stride and carry the
    identifiers 0, 1, ... *)
Definition window_starts (chunks : list Chunk) (chunk_size overlap : Z)
  : Prop :=
  forall i c, nth_error chunks i = Some c ->
    start_word c = Z.of_nat i * (chunk_size - overlap)
    /\ chunk_id c = Z.of_nat i.

(** The quotient rounded up, for a positive divisor. *)
Definition cdiv (a s : Z) : Z := (a + s - 1) / s.

(** The number of windows on [W] words: the starts [0, C-O, 2(C-O), ...]
    below [W], up to and including the first window whose end reaches
    [W]. *)
Definition window_count (W chunk_size overlap : Z) : nat :=
  Z.to_nat (Z.min (cdiv W (chunk_size - overlap))
              (cdiv (W - chunk_size) (chunk_size - overlap) + 1)).

(** The chunks of a list with [chunk_id] counting from [id]. *)
Fixpoint renumber (id : Z) (chunks : list Chunk) : list Chunk :=
  match chunks with
  | [] => []
  | c :: rest =>
      mkChunk (text c) (source c) id (start_word c) (end_word c)
        (word_count c) :: renumber (id + 1) rest
  end.

(** The sliding windows as the specification describes them: the windows
    at the starts [0, C-O, 2(C-O), ...], each ending [chunk_size] words
    after its start or at the end of the document, without the windows of
    fewer than [min_chunk_size] words, numbered from 0. *)
Definition sliding_windows (words : list string) (source_file : string)
  (chunk_size overlap min_chunk_size : Z) : list Chunk :=
  renumber 0
    (filter (fun c => min_chunk_size <=? word_count c)
       (map (fun j => window words source_file chunk_size 0
                        (Z.of_nat j * (chunk_size - overlap)))
          (seq 0 (window_count (len words) chunk_size overlap)))).

(** The general-case contract of the chunker: the call returns chunks that
    start at the multiples of the stride and carry the identifiers 0, 1, ...,
    each with at least [min_chunk_size] words, and that cover the document
    up to a tail shorter than the minimum. *)
Definition sliding_window_chunks (text source_file : string)
  (chunk_size overlap min_chunk_size : Z) : Prop :=
  exists chunks,
    chunk_text text source_file chunk_size overlap min_chunk_size = Some chunks
    /\ window_starts chunks chunk_size overlap
    /\ Forall (fun c => min_chunk_size <= word_count c) chunks
    /\ covers_except_tail chunks (len (words_of text)) min_chunk_size.

(** The defaults of the signature. *)
Definition default_chunk_size : Z := 300.
Definition default_overlap : Z := 50.
Definition default_min_chunk_size : Z := 50.

(** A word: a string that is not empty and holds no whitespace. *)
Fixpoint no_space (s : string) : bool :=
  match s with
  | EmptyString => true
  | String c r => negb (isspace c) && no_space r
  end.

Definition is_word (w : string) : Prop := w <> EmptyString /\ no_space w = true.

End Chunker.

(* ================================================================== *)
(** ** The FAISS library, as [utils/faiss_index.py] uses it *)

Module Faiss.
Import Py.
Local Open Scope R_scope.

(** One embedding: a row of a two-dimensional array. *)
Definition vector : Type := list R.

(** The inner product of two rows. *)
Fixpoint dot (u v : vector) : R :=
  match u, v with
  | a :: u', b :: v' => a * b + dot u' v'
  | _, _ => 0
  end.

(** The squared L2 norm. *)
Definition norm_L2sqr (x : vector) : R := dot x x.

(** Modelled from the spec: [faiss.normalize_L2] is a function of the FAISS
    library, which is not among the sources.  The spec has it normalise
    every vector to unit L2 norm; the library does so by scaling a row with
    the inverse of its norm, and leaves a row of norm zero as it is. *)
Definition renorm_L2 (x : vector) : vector :=
  let nr := norm_L2sqr x in
  if Rlt_dec 0 nr
  then let inv_nr := / sqrt nr in map (fun xi => xi * inv_nr) x
  else x.

Definition normalize_L2 (x : list vector) : list vector := map renorm_L2 x.

(** Modelled from the spec: [faiss.IndexFlatIP], a class of the FAISS
    library, which is not among the sources: the dimension [d] and the
    stored vectors in insertion order. *)
Record IndexFlatIP := mkIndex {
  d : nat;
  xb : list vector
}.

Definition new_IndexFlatIP (dim : nat) : IndexFlatIP := mkIndex dim [].

Definition ntotal (index : IndexFlatIP) : Z := len (xb index).

(** [index.add(x)] appends the rows of [x]. *)
Definition add (index : IndexFlatIP) (x : list vector) : IndexFlatIP :=
  mkIndex (d index) (xb index ++ x).

(** One search result: the position (label) of a stored vector and its
    inner product with the query. *)
Definition hit : Type := (Z * R)%type.

(** [a] is listed before [b]: by descending score, ties by ascending
    position. *)
Definition ranks_first (a b : hit) : Prop :=
  snd b < snd a \/ (snd a = snd b /\ (fst a <= fst b)%Z).

Definition ranks_firstb (a b : hit) : bool :=
  if Rlt_dec (snd b) (snd a) then true
  else if Req_dec_T (snd a) (snd b) then (fst a <=? fst b)%Z
  else false.

Fixpoint insert_hit (a : hit) (l : list hit) : list hit :=
  match l with
  | [] => [a]
  | b :: r => if ranks_firstb a b then a :: l else b :: insert_hit a r
  end.

Definition sort_hits (l : list hit) : list hit := fold_right insert_hit [] l.

(** The inner product of the query with every stored vector, by
    position. *)
Definition inner_products (q : vector) (x : list vector) : list hit :=
  combine (map Z.of_nat (seq 0 (List.length x))) (map (dot q) x).

(** Modelled from the spec: [index.search(query, k)] of the FAISS library,
    which is not among the sources, for a query of one row.  The spec has
    it return the [k] best positions with their scores, ordered by
    descending inner product, ties broken by ascending position.  The
    library refuses ([None]) a query of another dimension than the index
    and a [k] that is not positive.  It is only called with [k <= ntotal]:
    no result is padded. *)
Definition search (index : IndexFlatIP) (q : vector) (k : Z)
  : option (list hit) :=
  if (List.length q =? d index)%nat && (0 <? k)%Z
  then Some (firstn (Z.to_nat k) (sort_hits (inner_products q (xb index))))
  else None.

End Faiss.

(* ================================================================== *)
(** ** utils/faiss_index.py *)

Module FaissIndex.
Import Py Chunker Faiss.

(** A two-dimensional NumPy array, by rows; [size] counts its elements. *)
Definition ndarray : Type := list vector.

Definition size (a : ndarray) : Z := len (List.concat a).

(** [create_faiss_index(embeddings)]; [None] is Python's [None].  No
    statement of the [try] block raises on a two-dimensional array. *)
Definition create_faiss_index (embeddings : ndarray) : option IndexFlatIP :=
  if size embeddings =? 0 then None
  else
    let embeddings := normalize_L2 embeddings in
    let dim := List.length (hd [] embeddings) in
    let index := new_IndexFlatIP dim in
    Some (add index embeddings).

(** A chunk dictionary with the two keys retrieval adds to its copy. *)
Record RankedChunk := mkRanked {
  chunk : Chunk;
  similarity_score : R;
  rank : Z
}.

(** The [for rank, (idx, score) in enumerate(zip(indices[0], scores[0]))]
    loop; [rank] is the counter of [enumerate]. *)
Fixpoint collect (chunks : list Chunk) (rank : Z) (hits : list hit)
  : list RankedChunk :=
  match hits with
  | [] => []
  | (idx, score) :: rest =>
      let top_chunks := collect chunks (rank + 1) rest in
      if (0 <=? idx) && (idx <? len chunks) then
        match nth_error chunks (Z.to_nat idx) with
        | Some c => mkRanked c score (rank + 1) :: top_chunks
        | None => top_chunks
        end
      else top_chunks
  end.

(** The search step of [retrieve_top_k_chunks]: the query, a
    one-dimensional array, is normalised and the index searched for
    [min(k, len(chunks), index.ntotal)] neighbours; the result pairs
    [indices[0]] with [scores[0]]. *)
Definition search_hits (query_embedding : vector) (index : IndexFlatIP)
  (chunks : list Chunk) (k : Z) : option (list hit) :=
  let query_vector := renorm_L2 query_embedding in
  let num_search := Z.min k (Z.min (len chunks) (ntotal index)) in
  search index query_vector num_search.

(** [retrieve_top_k_chunks(query_embedding, index, chunks, k)]; an
    exception of the search is caught and yields the empty list. *)
Definition retrieve_top_k_chunks (query_embedding : vector)
  (index : option IndexFlatIP) (chunks : list Chunk) (k : Z)
  : list RankedChunk :=
  match index with
  | None => []
  | Some index =>
      if len chunks =? 0 then []
      else
        match search_hits query_embedding index chunks k with
        | Some hits => collect chunks 0 hits
        | None => []
        end
  end.

End FaissIndex.

(* ================================================================== *)
(** ** utils/faiss_index.py over the FAISS library as a parameter *)

Module FaissApi.
Import Py Chunker.

Section Library.
(** The numbers of the arrays the functions are given, the [float32]
    numbers FAISS computes with, and [astype("float32")] on one number. *)
Variable number float32 : Type.
Variable astype_float32 : number -> float32.

(** [faiss.normalize_L2] on one row of a [float32] array: the library
    works row by row. *)
Variable renorm_L2 : list float32 -> list float32.

(** [faiss.IndexFlatIP]: the dimension [d] and the stored rows, in
    insertion order. *)
Record IndexFlatIP := mkIndex {
  d : nat;
  xb : list (list float32)
}.

(** One slot of a search result: a label, which is a position of the
    index, or -1 where the library has no result, and a score. *)
Definition hit : Type := (Z * float32)%type.

(** [index.search(query, k)] for a query of one row.  The library raises
    ([None]), or it returns two arrays of shape [(1, k)]: slot [i] is
    [(indices[0][i], scores[0][i])]. *)
Variable search : IndexFlatIP -> list float32 -> Z -> option (nat -> hit).

Definition new_IndexFlatIP (dim : nat) : IndexFlatIP := mkIndex dim [].

Definition ntotal (index : IndexFlatIP) : Z := len (xb index).

(** [index.add(x)] appends the rows of [x]. *)
Definition add (index : IndexFlatIP) (x : list (list float32)) : IndexFlatIP :=
  mkIndex (d index) (xb index ++ x).

(** A two-dimensional NumPy array, by rows; [size] counts its elements. *)
Definition ndarray : Type := list (list number).

Definition size (a : ndarray) : Z := len (List.concat a).

(** [create_faiss_index(embeddings)]; [None] is Python's [None]. *)
Definition create_faiss_index (embeddings : ndarray) : option IndexFlatIP :=
  if size embeddings =? 0 then None
  else
    let embeddings := map (map astype_float32) embeddings in
    let embeddings := map renorm_L2 embeddings in
    let dim := List.length (hd [] embeddings) in
    let index := new_IndexFlatIP dim in
    Some (add index embeddings).

(** A chunk dictionary with the two keys retrieval adds to its copy. *)
Record RankedChunk := mkRanked {
  chunk : Chunk;
  similarity_score : float32;
  rank : Z
}.

(** The [for rank, (idx, score) in enumerate(zip(indices[0], scores[0]))]
    loop; [rank] is the counter of [enumerate]. *)
Fixpoint collect (chunks : list Chunk) (rank : Z) (hits : list hit)
  : list RankedChunk :=
  match hits with
  | [] => []
  | (idx, score) :: rest =>
      let top_chunks := collect chunks (rank + 1) rest in
      if (0 <=? idx) && (idx <? len chunks) then
        match nth_error chunks (Z.to_nat idx) with
        | Some c => mkRanked c score (rank + 1) :: top_chunks
        | None => top_chunks
        end
      else top_chunks
  end.

(** The search step of [retrieve_top_k_chunks] (lines 62-72): the query, a
    one-dimensional array, is converted and normalised, and the index is
    searched for [min(k, len(chunks), index.ntotal)] neighbours; the result
    pairs [indices[0]] with [scores[0]]. *)
Definition search_hits (query_embedding : list number) (index : IndexFlatIP)
  (chunks : list Chunk) (k : Z) : option (list hit) :=
  let query_vector := renorm_L2 (map astype_float32 query_embedding) in
  let num_search := Z.min k (Z.min (len chunks) (ntotal index)) in
  match search index query_vector num_search with
  | Some slots => Some (map slots (seq 0 (Z.to_nat num_search)))
  | None => None
  end.

(** [retrieve_top_k_chunks(query_embedding, index, chunks, k)]; an
    exception of the search is caught and yields the empty list. *)
Definition retrieve_top_k_chunks (query_embedding : list number)
  (index : option IndexFlatIP) (chunks : list Chunk) (k : Z)
  : list RankedChunk :=
  match index with
  | None => []
  | Some index =>
      if len chunks =? 0 then []
      else
        match search_hits query_embedding index chunks k with
        | Some hits => collect chunks 0 hits
        | None => []
        end
  end.

(** Result [rc] comes from slot [i] of [hits]: the slot holds a valid
    position of [chunks], and [rc] is the chunk at that position with the
    score of the slot and the rank [i + 1]. *)
Definition maps_slot (chunks : list Chunk) (hits : list hit) (i : nat)
  (rc : RankedChunk) : Prop :=
  exists idx score,
    nth_error hits i = Some (idx, score)
    /\ 0 <= idx < len chunks
    /\ nth_error chunks (Z.to_nat idx) = Some (chunk rc)
    /\ similarity_score rc = score
    /\ rank rc = Z.of_nat i + 1.

End Library.

Arguments mkIndex {float32}.
Arguments d {float32}.
Arguments xb {float32}.
Arguments ntotal {float32}.
Arguments add {float32}.
Arguments size {number}.
Arguments mkRanked {float32}.
Arguments chunk {float32}.
Arguments similarity_score {float32}.
Arguments rank {float32}.
Arguments collect {float32}.
Arguments maps_slot {float32}.
Arguments create_faiss_index {number float32}.
Arguments search_hits {number float32}.
Arguments retrieve_top_k_chunks {number float32}.

End FaissApi.

(* ================================================================== *)
(** ** utils/llm.py *)

Module Llm.
Import Py.
Local Open Scope string_scope.
Local Open Scope Z_scope.

(** One entry of the ["justification"] list. *)
Record Justification := mkJustification {
  clause : string;
  jtext : string;        (* key "text" *)
  relevance : string
}.

(** The dictionary [create_fallback_response] builds. *)
Record Fallback := mkFallback {
  decision : string;
  confidence : R;
  justification : list Justification;
  summary : string;
  reasoning : string;
  raw_response : string;
  note : string
}.

(** [create_fallback_response(query, raw_text)] *)
Definition create_fallback_response (query raw_text : string) : Fallback :=
  mkFallback
    "processed"
    (5 / 10)%R
    [mkJustification
       "General Analysis"
       (if 500 <? str_len raw_text
        then str_slice raw_text 0 500 ++ "..."
        else raw_text)
       "AI-generated fallback response to the query"]
    ("Processed query: " ++ query)
    "Fallback used due to parsing failure"
    raw_text
    "This is a fallback response due to invalid or unstructured LLM output".

(** What [model.generate_content(prompt)] does: it raises, or it answers
    with a text. *)
Inductive Generated :=
| Raises (message : string)
| Text (text : string).

Section Responses.
(** The type of a parsed JSON object. *)
Variable Json : Type.

(** What [call_gemini] returns. *)
Inductive Response :=
| ErrorResponse (error : string)   (* decision "error", confidence 0.0 *)
| ParsedResponse (parsed : Json)
| FallbackResponse (fallback : Fallback).

(** A fallback response for [query] that carries [raw] cut to a bounded
    length. *)
Definition fallback_for (query raw : string) (r : Response) : Prop :=
  exists f j,
    r = FallbackResponse f
    /\ summary f = "Processed query: " ++ query
    /\ justification f = [j]
    /\ str_len (jtext j) <= 503
    /\ (str_len raw <= 500 -> jtext j = raw)
    /\ (500 < str_len raw -> jtext j = str_slice raw 0 500 ++ "...").

End Responses.

(** ["Chunk {i+1}:\n{chunk}"] for the chunks from index [i] on. *)
Fixpoint numbered (i : nat) (chunks : list string) : list string :=
  match chunks with
  | [] => []
  | chunk :: rest =>
      ("Chunk " ++ NilZero.string_of_uint (Nat.to_uint (i + 1)) ++ ":"
         ++ String (ascii_of_nat 10) chunk)
      :: numbered (i + 1) rest
  end.

Definition newline2 : string :=
  String (ascii_of_nat 10) (String (ascii_of_nat 10) EmptyString).

End Llm.

(* ================================================================== *)
(** ** utils/llm.py with the parsed answer as a dictionary *)

Module LlmJson.
Import Py.
Local Open Scope string_scope.
Local Open Scope Z_scope.

(** A Python [float]: a finite double, which is a rational number, an
    infinity or a NaN. *)
Inductive pyfloat :=
| Finite (x : Q)
| Infinity (negative : bool)
| NaN.

(** [a < b] on floats; a comparison with a NaN is false. *)
Definition float_lt (a b : pyfloat) : bool :=
  match a, b with
  | NaN, _ | _, NaN => false
  | Infinity true, Infinity true => false
  | Infinity true, _ => true
  | Infinity false, _ => false
  | Finite _, Infinity negative => negb negative
  | Finite x, Finite y => negb (Qle_bool y x)
  end.

(** [min(a, b)] and [max(a, b)]: the first argument, unless the second is
    strictly smaller, respectively strictly greater. *)
Definition float_min (a b : pyfloat) : pyfloat := if float_lt b a then b else a.

Definition float_max (a b : pyfloat) : pyfloat := if float_lt a b then b else a.

(** What [json.loads] builds. *)
#[warnings="-register-all"]
Inductive value :=
| Null
| Bool (b : bool)
| Int (n : Z)
| Float (x : pyfloat)
| Str (s : string)
| Array (items : list value)
| Object (members : list (string * value)).

(** A [dict] with string keys, in insertion order. *)
Definition dict := list (string * value).

(** [d.get(key)], and [key in d] when the result is not [None]. *)
Fixpoint get (d : dict) (key : string) : option value :=
  match d with
  | [] => None
  | (k, v) :: rest => if String.eqb k key then Some v else get rest key
  end.

(** [d[key] = v] *)
Fixpoint setitem (d : dict) (key : string) (v : value) : dict :=
  match d with
  | [] => [(key, v)]
  | (k, v0) :: rest =>
      if String.eqb k key then (k, v) :: rest
      else (k, v0) :: setitem rest key v
  end.

(** What [float(v)] does: it returns a float, it raises a [ValueError] or a
    [TypeError], which line 110 catches, or it raises an [OverflowError],
    which line 110 does not catch. *)
Inductive converted :=
| Converted (x : pyfloat)
| Refused
| Overflows.

(** What [json.loads] does on a text: it returns the object, it raises a
    [JSONDecodeError], which line 116 catches, or it raises another
    exception (a [ValueError] for an integer of too many digits, a
    [RecursionError]), which only the handler of line 120 catches;
    [message] is [str(e)]. *)
Inductive loaded :=
| Loaded (parsed_response : dict)
| JSONDecodeError
| OtherError (message : string).

(** [str(e)] of that [OverflowError]. *)
Definition overflow_message : string := "int too large to convert to float".

Section CallGemini.
(** The conversions of [float]: of an [int] ([None]: [OverflowError]) and
    of a [str] ([None]: [ValueError]). *)
Variable float_of_int : Z -> option pyfloat.
Variable float_of_str : string -> option pyfloat.

(** [json.loads], the module-level [GEMINI_API_KEY], and the model as a
    function of what the prompt template is filled with: the context and
    the query. *)
Variable json_loads : string -> loaded.
Variable GEMINI_API_KEY : option string.
Variable generate_content : string -> string -> Llm.Generated.

(** [float(v)] *)
Definition float (v : value) : converted :=
  match v with
  | Float x => Converted x
  | Bool b => Converted (Finite (if b then 1 else 0))
  | Int n =>
      match float_of_int n with
      | Some x => Converted x
      | None => Overflows
      end
  | Str s =>
      match float_of_str s with
      | Some x => Converted x
      | None => Refused
      end
  | Null | Array _ | Object _ => Refused
  end.

Definition required_fields : list string := ["decision"; "confidence"].

(** Lines 102-103, the body of the loop over the required fields. *)
Definition add_missing (parsed_response : dict) (field : string) : dict :=
  match get parsed_response field with
  | Some _ => parsed_response
  | None =>
      setitem parsed_response field
        (if String.eqb field "decision" then Str "unknown"
         else Float (Finite (1 # 2)))
  end.

(** Lines 100-111: the required fields and the confidence of a parsed
    answer, in place.  [None]: the [OverflowError] of [float]. *)
Definition with_required_fields (parsed_response : dict) : option dict :=
  let parsed_response := fold_left add_missing required_fields parsed_response in
  let confidence :=
    match get parsed_response "confidence" with
    | Some v => v
    | None => Float (Finite (1 # 2))
    end in
  match float confidence with
  | Converted confidence =>
      Some (setitem parsed_response "confidence"
              (Float (float_max (Finite 0) (float_min (Finite 1) confidence))))
  | Refused =>
      Some (setitem parsed_response "confidence" (Float (Finite (1 # 2))))
  | Overflows => None
  end.

(** [text[json_start:json_end]], the span from the first opening to the
    last closing brace. *)
Definition json_span (text : string) : string :=
  str_slice text (find_char "{" text) (rfind_char "}" text + 1).

(** Lines 81-127: from the answer of the model to the result; an exception
    that leaves the inner [try] reaches the handler of line 120. *)
Definition parse_answer (query response_text : string) : Llm.Response dict :=
  match response_text with
  | EmptyString => Llm.ErrorResponse dict "Empty response from LLM"
  | _ =>
      let text := strip response_text in
      let json_start := find_char "{" text in
      let json_end := rfind_char "}" text + 1 in
      if (json_start =? -1) || (json_end =? 0)
      then Llm.FallbackResponse dict (Llm.create_fallback_response query text)
      else
        let json_text := str_slice text json_start json_end in
        match json_loads json_text with
        | Loaded parsed_response =>
            match with_required_fields parsed_response with
            | Some parsed_response => Llm.ParsedResponse dict parsed_response
            | None =>
                Llm.ErrorResponse dict
                  ("Failed to process query: " ++ overflow_message)
            end
        | JSONDecodeError =>
            Llm.FallbackResponse dict
              (Llm.create_fallback_response query response_text)
        | OtherError e =>
            Llm.ErrorResponse dict ("Failed to process query: " ++ e)
        end
  end.

(** [call_gemini(query, chunks)] *)
Definition call_gemini (query : string) (chunks : list string)
  : Llm.Response dict :=
  match GEMINI_API_KEY with
  | None | Some EmptyString => Llm.ErrorResponse dict "LLM not configured"
  | Some _ =>
      let context := join Llm.newline2 (Llm.numbered 0 chunks) in
      match generate_content context query with
      | Llm.Raises e => Llm.ErrorResponse dict ("Failed to process query: " ++ e)
      | Llm.Text response_text => parse_answer query response_text
      end
  end.

(** The answer is malformed: it holds no span from a first opening to a
    last closing brace, or [json.loads] raises a [JSONDecodeError] on that
    span. *)
Definition unparsable (response_text : string) : Prop :=
  let text := strip response_text in
  find_char "{" text = -1 \/ rfind_char "}" text = -1
  \/ json_loads (json_span text) = JSONDecodeError.

(** The text the fallback is built from: the stripped answer when it has
    no brace span (line 95), the answer itself otherwise (line 118). *)
Definition fallback_text (response_text : string) : string :=
  let text := strip response_text in
  if (find_char "{" text =? -1) || (rfind_char "}" text + 1 =? 0)
  then text else response_text.

(** A dictionary whose ["confidence"] is a finite float between 0 and 1. *)
Definition confidence_in_range (d : dict) : Prop :=
  exists x, get d "confidence" = Some (Float (Finite x)) /\ (0 <= x <= 1)%Q.

End CallGemini.

End LlmJson.

(* ================================================================== *)
(** ** utils/extractor.py, utils/embedder.py and app.py *)

Module App.
Import Py Chunker Faiss FaissIndex.
Local Open Scope string_scope.
Local Open Scope Z_scope.

Definition newline : string := String (ascii_of_nat 10) EmptyString.

(** A document as [python-docx] presents it: the texts of the paragraphs,
    and of the cells of the tables by row. *)
Record DocxDocument := mkDocx {
  paragraphs : list string;
  tables : list (list (list string))
}.

(** The JSON bodies [hackrx_webhook] answers with. *)
Record Metadata := mkMetadata {
  total_documents : Z;
  total_chunks : Z;
  retrieved_chunks : Z;
  sources : list string
}.

Section Orchestrator.
(** The readers of the file formats.  [pdfplumber_open]: [None] when
    opening raises, else the pages, each [None] when [extract_text]
    raises and else its text (empty when there is none).
    [docx_Document]: [None] when it raises.  [decode_utf8]: the text, or
    the message of the [UnicodeDecodeError]. *)
Variable bytes : Type.
Variable pdfplumber_open : bytes -> option (list (option string)).
Variable docx_Document : bytes -> option DocxDocument.
Variable decode_utf8 : bytes -> string + string.

(** The sentence-transformer model: [model.encode(texts)], [None] when it
    raises. *)
Variable encode : list string -> option (list vector).

(** The LLM collaborator, [utils.llm.call_gemini]. *)
Variable LlmResponse : Type.
Variable call_gemini : string -> list string -> LlmResponse.

(** [extract_text_from_pdf]: a failure to open the file is caught and
    yields the empty text, a page that fails is skipped. *)
Definition extract_text_from_pdf (file : bytes) : string :=
  match pdfplumber_open file with
  | None => ""
  | Some pages =>
      strip
        (fold_left
           (fun text page =>
              match page with
              | Some (String c r) => text ++ String c r ++ newline
              | _ => text
              end)
           pages "")
  end.

(** [extract_text_from_docx]: any failure is caught and yields the empty
    text. *)
Definition extract_text_from_docx (file : bytes) : string :=
  match docx_Document file with
  | None => ""
  | Some doc =>
      let text :=
        fold_left
          (fun text paragraph =>
             match strip paragraph with
             | EmptyString => text
             | _ => text ++ paragraph ++ newline
             end)
          (paragraphs doc) "" in
      let text :=
        fold_left
          (fun text table =>
             fold_left
               (fun text row =>
                  fold_left
                    (fun text cell =>
                       match strip cell with
                       | EmptyString => text
                       | _ => text ++ cell ++ " "
                       end)
                    row text ++ newline)
               table text)
          (tables doc) text in
      strip text
  end.

(** [extract_text_from_file(file_content, filename)] of [app.py]: the
    text, or the message of the exception it re-raises. *)
Definition extract_text_from_file (file_content : bytes) (filename : string)
  : string + string :=
  if endswith (lower filename) ".pdf"
  then inl (extract_text_from_pdf file_content)
  else if endswith (lower filename) ".docx"
  then inl (extract_text_from_docx file_content)
  else if endswith (lower filename) ".txt"
  then decode_utf8 file_content
  else inr ("Unsupported file type: " ++ filename).

(** [generate_embeddings(chunks)] and [embed_query(query)] of
    [utils/embedder.py]. *)
Definition generate_embeddings (chunks : list Chunk) : ndarray :=
  match chunks with
  | [] => []
  | _ => match encode (map text chunks) with
         | Some embeddings => embeddings
         | None => []
         end
  end.

Definition embed_query (query : string) : vector :=
  match encode [query] with
  | Some (v :: _) => v
  | _ => repeat 0%R 384
  end.


Inductive Body :=
| ErrorJson (error : string)
| RejectedJson (message : string)
| AcceptedJson (response : LlmResponse) (metadata : Metadata).

Definition HttpResponse : Type := (Body * Z)%type.

(** How the loop over the uploaded files ends: with the response of its
    [except] branch, or with the chunks of all the files. *)
Inductive Processed :=
| Aborted (response : HttpResponse)
| Collected (all_chunks : list Chunk).

(** The [for i, file in enumerate(files)] loop.  [calls] records the file
    names [extract_text_from_file] was called on, in order.  [None]: a
    call of [chunk_text] that never returns. *)
Fixpoint process_files (files : list (string * bytes))
  (all_chunks : list Chunk) (calls : list string)
  : option (Processed * list string) :=
  match files with
  | [] => Some (Collected all_chunks, calls)
  | (filename, file_content) :: rest =>
      let calls := (calls ++ [filename])%list in
      match extract_text_from_file file_content filename with
      | inr e =>
          Some (Aborted (ErrorJson ("Failed to process " ++ filename
                                      ++ ": " ++ e), 500), calls)
      | inl text =>
          match strip text with
          | EmptyString => process_files rest all_chunks calls
          | _ =>
              match chunk_text text filename default_chunk_size
                      default_overlap default_min_chunk_size with
              | None => None
              | Some chunks =>
                  process_files rest (all_chunks ++ chunks)%list calls
              end
          end
      end
  end.

(** The chunks the loop body appends for one document whose extraction
    does not raise: none for a text that is blank, else those of
    [chunk_text] under the name of the file. *)
Definition document_chunks (file : string * bytes) (chunks : list Chunk)
  : Prop :=
  exists text0,
    extract_text_from_file (snd file) (fst file) = inl text0
    /\ ((strip text0 = "" /\ chunks = [])
        \/ (strip text0 <> ""
            /\ chunk_text text0 (fst file) default_chunk_size
                 default_overlap default_min_chunk_size = Some chunks)).

(** The steps of [hackrx_webhook] after the loop. *)
Definition answer (query : string) (files : list (string * bytes))
  (all_chunks : list Chunk) : HttpResponse :=
  match all_chunks with
  | [] => (ErrorJson "No text could be extracted from any documents", 400)
  | _ =>
      let embeddings := generate_embeddings all_chunks in
      if size embeddings =? 0
      then (ErrorJson "Failed to generate embeddings", 500)
      else
        match create_faiss_index embeddings with
        | None => (ErrorJson "Failed to build FAISS index", 500)
        | Some index =>
            let query_embedding := embed_query query in
            let top_chunks :=
              retrieve_top_k_chunks query_embedding (Some index)
                all_chunks 5 in
            match top_chunks with
            | [] =>
                (RejectedJson "No relevant information found in documents",
                 404)
            | _ =>
                let context_chunks :=
                  map (fun c => text (chunk c)) top_chunks in
                let response := call_gemini query context_chunks in
                (AcceptedJson response
                   (mkMetadata (len files) (len all_chunks) (len top_chunks)
                      (nodup string_dec
                         (map (fun c => source (chunk c)) top_chunks))),
                 200)
            end
        end
  end.

(** [hackrx_webhook], as a function of the form field ["query"] and the
    uploaded files; with the response, the calls of the extraction. *)
Definition hackrx_webhook (query : option string)
  (files : list (string * bytes)) : option (HttpResponse * list string) :=
  match query with
  | None | Some EmptyString =>
      Some ((ErrorJson "Missing query in form-data", 400), [])
  | Some query =>
      match files with
      | [] => Some ((ErrorJson "No documents uploaded", 400), [])
      | _ =>
          match process_files files [] [] with
          | None => None
          | Some (Aborted response, calls) => Some (response, calls)
          | Some (Collected all_chunks, calls) =>
              Some (answer query files all_chunks, calls)
          end
      end
  end.

(** The extraction fails on a document: its reader raises, or its type is
    not supported. *)
Definition extraction_fails (file_content : bytes) (filename : string)
  : Prop :=
  (endswith (lower filename) ".pdf" = true
   /\ pdfplumber_open file_content = None)
  \/ (endswith (lower filename) ".pdf" = false
      /\ endswith (lower filename) ".docx" = true
      /\ docx_Document file_content = None)
  \/ (exists e, extract_text_from_file file_content filename = inr e).

(** The response is the error of the [except] branch of the loop, which
    names the document. *)
Definition names_document (filename : string) (r : HttpResponse) : Prop :=
  exists e, r = (ErrorJson ("Failed to process " ++ filename ++ ": " ++ e),
                 500).

End Orchestrator.

Arguments ErrorJson {LlmResponse} error.
Arguments RejectedJson {LlmResponse} message.
Arguments AcceptedJson {LlmResponse} response metadata.
Arguments Aborted {LlmResponse} response.
Arguments Collected {LlmResponse} all_chunks.
Arguments names_document {LlmResponse} filename r.

Section TxtExtractor.
(** [file_content.decode(encoding)]: the text, or [None] for a
    [UnicodeDecodeError]; and [file_content.decode('utf-8',
    errors='replace')], which does not raise. *)
Variable bytes : Type.
Variable decode : string -> bytes -> option string.
Variable decode_utf8_replace : bytes -> string.

(** The [for enc in encodings] loop with its [break]; [None] when the loop
    ends without one, which is what its [else] branch is for. *)
Fixpoint try_encodings (encodings : list string) (file_content : bytes)
  : option string :=
  match encodings with
  | [] => None
  | enc :: rest =>
      match decode enc file_content with
      | Some text => Some text
      | None => try_encodings rest file_content
      end
  end.

(** [extract_text_from_txt(file_content)] of [utils/extractor.py]; nothing
    in its outer [try] block raises. *)
Definition extract_text_from_txt (file_content : bytes) : string :=
  let text :=
    match decode "utf-8" file_content with
    | Some text => text
    | None =>
        match try_encodings ["latin-1"; "cp1252"; "iso-8859-1"]
                file_content with
        | Some text => text
        | None => decode_utf8_replace file_content
        end
    end in
  strip text.

End TxtExtractor.

(** The document of [test_rag_system.py], [create_test_document]. *)
Definition test_document : string := "
    This is a test document for the RAG system.
    
    The company policy states that:
    1. Expense claims up to $500 are automatically approved
    2. Claims between $500-$2000 require manager approval
    3. Claims above $2000 require executive approval
    
    Travel expenses are reimbursed according to the following rules:
    - Domestic flights: Economy class only
    - International flights: Business class for flights over 8 hours
    - Hotel accommodation: Up to $200 per night
    - Meals: Up to $75 per day
    
    The approval process typically takes 3-5 business days.
    All receipts must be submitted within 30 days of the expense.
    ".

End App.

Import Py Chunker Faiss FaissIndex.
Local Open Scope string_scope.
Local Open Scope list_scope.
Local Open Scope Z_scope.


(* ================================================================== *)
(** * Properties *)

(** ** Slices *)

(** Within bounds a slice has [stop - start] elements. *)
Lemma len_slice_inner {A : Type} (l : list A) (a b : Z) :
  0 <= a -> a <= b -> b <= len l -> len (slice l a b) = b - a.
Proof.
  intros Ha Hab Hb. unfold slice, slice_bound.
  destruct (Z.ltb_spec a 0); [lia|].
  destruct (Z.ltb_spec b 0); [lia|].
  rewrite !Z.min_l by lia.
  unfold len in *. rewrite length_firstn, length_skipn. lia.
Qed.

(** A slice whose bounds are not negative has at most [stop - start]
    elements. *)
Lemma len_slice_width {A : Type} (l : list A) (a b : Z) :
  0 <= a -> a <= b -> len (slice l a b) <= b - a.
Proof.
  intros Ha Hab. unfold slice, slice_bound.
  destruct (Z.ltb_spec a 0); [lia|].
  destruct (Z.ltb_spec b 0); [lia|].
  unfold len. rewrite length_firstn, length_skipn. lia.
Qed.

(** ** The sliding-window loop of [chunk_text] *)

Section LoopFacts.
Variables (words : list string) (src : string) (C O M : Z).

Local Abbreviation loop := (chunk_loop words src C O M).
Local Abbreviation W := (len words).
Local Abbreviation window := (window words src C).

(** One unfolding of the loop. *)
Lemma loop_step fuel start id acc :
  start < W ->
  loop (S fuel) start id acc =
    let kept := M <=? word_count (window id start) in
    let acc' := if kept then acc ++ [window id start] else acc in
    let id' := if kept then id + 1 else id in
    if W <=? Z.min (start + C) W then Some acc'
    else loop fuel (start + (C - O)) id' acc'.
Proof.
  intros Hlt. cbn [chunk_loop].
  destruct (Z.ltb_spec start W); [|lia].
  unfold window; cbn [word_count].
  destruct (M <=? len (slice words start (Z.min (start + C) W))); reflexivity.
Qed.

Lemma loop_exit fuel start id acc :
  W <= start -> loop fuel start id acc = Some acc.
Proof.
  intros Hge. destruct fuel; cbn [chunk_loop];
    destruct (Z.ltb_spec start W); try lia; reflexivity.
Qed.

Lemma loop_no_fuel start id acc :
  start < W -> loop 0 start id acc = None.
Proof.
  intros Hlt. cbn [chunk_loop]. destruct (Z.ltb_spec start W); [reflexivity|lia].
Qed.

(** The accumulator is only ever extended at its end. *)
Lemma loop_acc fuel : forall start id acc,
  loop fuel start id acc = option_map (app acc) (loop fuel start id []).
Proof.
  induction fuel as [|fuel IH]; intros start id acc.
  - destruct (Z.lt_ge_cases start W) as [Hlt|Hge].
    + rewrite !loop_no_fuel by assumption. reflexivity.
    + rewrite !loop_exit by assumption. cbn. now rewrite app_nil_r.
  - destruct (Z.lt_ge_cases start W) as [Hlt|Hge].
    + rewrite !loop_step by assumption. cbv zeta.
      destruct (M <=? word_count (window id start));
        destruct (W <=? Z.min (start + C) W); cbn [option_map app];
        try rewrite app_nil_r; try reflexivity.
      * rewrite (IH _ _ (acc ++ _)), (IH _ _ [_]).
        destruct (loop fuel _ _ []); cbn; [|reflexivity].
        now rewrite <- app_assoc.
      * apply IH.
    + rewrite !loop_exit by assumption. cbn. now rewrite app_nil_r.
Qed.

(** More fuel does not change a result. *)
Lemma loop_fuel_mono fuel : forall fuel' start id acc res,
  (fuel <= fuel')%nat ->
  loop fuel start id acc = Some res -> loop fuel' start id acc = Some res.
Proof.
  induction fuel as [|fuel IH]; intros fuel' start id acc res Hle Hrun.
  - destruct (Z.lt_ge_cases start W) as [Hlt|Hge].
    + rewrite loop_no_fuel in Hrun by assumption. discriminate.
    + rewrite loop_exit in * by assumption. assumption.
  - destruct fuel' as [|fuel']; [lia|].
    destruct (Z.lt_ge_cases start W) as [Hlt|Hge].
    + rewrite loop_step in * by assumption. cbv zeta in *.
      destruct (W <=? Z.min (start + C) W); [assumption|].
      apply IH with (fuel' := fuel') in Hrun; [assumption|lia].
    + rewrite loop_exit in * by assumption. assumption.
Qed.

(** With a positive stride the loop ends within [W - start] iterations. *)
Lemma loop_terminates fuel : forall start id acc,
  0 < C - O -> W - start <= Z.of_nat fuel ->
  exists res, loop fuel start id acc = Some res.
Proof.
  induction fuel as [|fuel IH]; intros start id acc Hstride Hfuel.
  - exists acc. apply loop_exit. lia.
  - destruct (Z.lt_ge_cases start W) as [Hlt|Hge].
    + rewrite loop_step by assumption. cbv zeta.
      destruct (W <=? Z.min (start + C) W); [eexists; reflexivity|].
      apply IH; lia.
    + exists acc. now apply loop_exit.
Qed.

(** With a stride that is not positive the loop, once entered from a
    [start <= 0] on a document longer than a window, never ends. *)
Lemma loop_diverges fuel : forall start id acc,
  C - O <= 0 -> start <= 0 -> 0 < W -> C < W ->
  loop fuel start id acc = None.
Proof.
  induction fuel as [|fuel IH]; intros start id acc Hstride Hstart HW HC.
  - apply loop_no_fuel. lia.
  - rewrite loop_step by lia. cbv zeta.
    destruct (Z.leb_spec W (Z.min (start + C) W)); [lia|].
    apply IH; lia.
Qed.

(** Whenever the loop started at word 0 ends, it ends within one iteration
    per word. *)
Lemma loop_fuel_enough fuel res :
  C < W ->
  loop fuel 0 0 [] = Some res -> loop (List.length words) 0 0 [] = Some res.
Proof.
  intros HC Hrun.
  destruct (Z.lt_ge_cases 0 W) as [HW|HW].
  - destruct (Z.lt_ge_cases 0 (C - O)) as [Hs|Hs].
    + destruct (loop_terminates (List.length words) 0 0 [] Hs) as [r Hr].
      { unfold len; lia. }
      pose proof (loop_fuel_mono _ (Nat.max fuel (List.length words)) _ _ _ _
                    (Nat.le_max_l _ _) Hrun) as H1.
      pose proof (loop_fuel_mono _ (Nat.max fuel (List.length words)) _ _ _ _
                    (Nat.le_max_r _ _) Hr) as H2.
      congruence.
    + rewrite loop_diverges in Hrun by lia. discriminate.
  - rewrite loop_exit in * by lia. assumption.
Qed.

Lemma loop_cons fuel start id w res :
  loop fuel start id [w] = Some res ->
  exists rest, loop fuel start id [] = Some rest /\ res = w :: rest.
Proof.
  rewrite loop_acc. destruct (loop fuel start id []) as [rest|]; cbn; [|discriminate].
  intros [= <-]. now exists rest.
Qed.

(** Every run of the function is a derivation of the relation. *)
Lemma loop_sound fuel : forall start id res,
  loop fuel start id [] = Some res -> loop_run words src C O M start id res.
Proof.
  induction fuel as [|fuel IH]; intros start id res Hrun.
  - destruct (Z.lt_ge_cases start W) as [Hlt|Hge].
    + rewrite loop_no_fuel in Hrun by assumption. discriminate.
    + rewrite loop_exit in Hrun by assumption. injection Hrun as <-.
      now constructor.
  - destruct (Z.lt_ge_cases start W) as [Hlt|Hge].
    + rewrite loop_step in Hrun by assumption. cbv zeta in Hrun.
      change (Z.min (start + C) W) with (end_word (window id start)) in Hrun.
      destruct (Z.leb_spec M (word_count (window id start))) as [Hk|Hk];
        destruct (Z.leb_spec W (end_word (window id start))) as [Hb|Hb].
      * injection Hrun as <-. now apply run_break_kept.
      * cbn [app] in Hrun. apply loop_cons in Hrun as (rest & Hrest & ->).
        apply run_next_kept; auto.
      * injection Hrun as <-. now apply run_break_dropped.
      * apply run_next_dropped; auto.
    + rewrite loop_exit in Hrun by assumption. injection Hrun as <-.
      now constructor.
Qed.

End LoopFacts.

(** ** What a run of the loop appends *)

Section RunFacts.
Variables (words : list string) (src : string) (C O M : Z).

Local Abbreviation run := (loop_run words src C O M).
Local Abbreviation W := (len words).
Local Abbreviation window := (window words src C).

(** Identifiers count the kept windows, and a kept window passed the
    minimum-size test; this holds for all parameters. *)
Lemma run_ids start id res :
  run start id res ->
  forall i c, nth_error res i = Some c ->
    chunk_id c = id + Z.of_nat i /\ M <= word_count c /\ source c = src.
Proof.
  induction 1 as [s k Hx | s k Hlt Hk Hb | s k Hlt Hk Hb
                 | s k rest Hlt Hk Hb Hrest IH | s k rest Hlt Hk Hb Hrest IH];
    intros i c Hi.
  - destruct i; discriminate.
  - destruct i as [|[|i]]; try discriminate. injection Hi as <-.
    cbn. repeat split; [lia|exact Hk].
  - destruct i; discriminate.
  - destruct i as [|i].
    + injection Hi as <-. cbn. repeat split; [lia|exact Hk].
    + cbn in Hi. destruct (IH _ _ Hi) as (H1 & H2 & H3).
      repeat split; [lia|assumption..].
  - apply IH. assumption.
Qed.

(** The words of a window that starts inside the document, for a window
    size that is not negative. *)
Lemma window_word_count id start :
  0 <= C -> 0 <= start -> start < W ->
  word_count (window id start) =
    end_word (window id start) - start_word (window id start).
Proof.
  intros HC H0 Hlt. cbn. apply len_slice_inner; lia.
Qed.

(** Shape of the chunks for a window size that is not negative. *)
Lemma run_shape start id res :
  0 <= C -> 0 < C - O ->
  run start id res -> 0 <= start ->
  Forall (fun c => end_word c - start_word c = word_count c
                   /\ start <= start_word c) res
  /\ StronglySorted (fun a b => start_word a < start_word b) res.
Proof.
  intros HC Hs.
  induction 1 as [s k Hx | s k Hlt Hk Hb | s k Hlt Hk Hb
                 | s k rest Hlt Hk Hb Hrest IH | s k rest Hlt Hk Hb Hrest IH];
    intros H0.
  - split; constructor.
  - split.
    + constructor; [|constructor]. rewrite window_word_count by assumption.
      cbn; lia.
    + repeat constructor.
  - split; constructor.
  - destruct IH as [IH1 IH2]; [lia|]. split.
    + constructor.
      * rewrite window_word_count by assumption. cbn; lia.
      * eapply Forall_impl; [|exact IH1]. cbn. intros c [? ?]. split; [assumption|lia].
    + constructor; [assumption|].
      eapply Forall_impl; [|exact IH1]. cbn. intros c [? ?]. lia.
  - destruct IH as [IH1 IH2]; [lia|]. split; [|assumption].
    eapply Forall_impl; [|exact IH1]. cbn. intros c [? ?]. split; [assumption|lia].
Qed.

(** With [0 <= overlap < chunk_size] and [min_chunk_size <= chunk_size]
    only the last window can be dropped: the kept windows start at the
    multiples of the stride and cover the document up to a tail shorter
    than the minimum. *)
Lemma run_stride start id res :
  0 <= O -> O < C -> M <= C ->
  run start id res -> 0 <= start -> start < W ->
  (forall i c, nth_error res i = Some c ->
     start_word c = start + Z.of_nat i * (C - O))
  /\ exists e, start <= e <= W /\ (e = W \/ W - e < M)
       /\ forall p, start <= p < e -> covered res p.
Proof.
  intros HO HOC HMC.
  induction 1 as [s k Hx | s k Hlt Hk Hb | s k Hlt Hk Hb
                 | s k rest Hlt Hk Hb Hrest IH | s k rest Hlt Hk Hb Hrest IH];
    intros H0 HltW.
  - lia.
  - split.
    + intros [|[|i]] c Hi; try discriminate. injection Hi as <-. cbn; lia.
    + exists W. split; [lia|]. split; [now left|]. intros p Hp.
      exists (window k s). split; [now left|]. cbn in *. lia.
  - split.
    + intros [|i] c Hi; discriminate.
    + exists s. split; [lia|]. split; [|intros p Hp; lia].
      rewrite window_word_count in Hk by lia. cbn in *. right. lia.
  - cbn in Hb. destruct IH as [IH1 (e & He & Htail & Hcov)]; [lia..|]. split.
    + intros [|i] c Hi.
      * injection Hi as <-. cbn; lia.
      * cbn in Hi. rewrite (IH1 _ _ Hi). lia.
    + exists e. split; [lia|]. split; [assumption|]. intros p Hp.
      destruct (Z.lt_ge_cases p (s + (C - O))) as [Hin|Hout].
      * exists (window k s). split; [now left|]. cbn. lia.
      * destruct (Hcov p) as (c & Hc & Hr); [lia|].
        exists c. split; [now right|assumption].
  - rewrite window_word_count in Hk by lia. cbn in Hk, Hb. lia.
Qed.

(** With [min_chunk_size > chunk_size] no window is long enough. *)
Lemma run_all_dropped start id res :
  0 <= C -> 0 < C - O -> C < M ->
  run start id res -> 0 <= start -> res = [].
Proof.
  intros HC Hs HM.
  assert (Hshort : forall k s, 0 <= s -> s < W ->
                     word_count (window k s) <= C).
  { intros k s H0 Hlt. cbn.
    pose proof (len_slice_width words s (Z.min (s + C) W)
                  ltac:(lia) ltac:(lia)). lia. }
  induction 1 as [s k Hx | s k Hlt Hk Hb | s k Hlt Hk Hb
                 | s k rest Hlt Hk Hb Hrest IH | s k rest Hlt Hk Hb Hrest IH];
    intros H0; try reflexivity.
  - specialize (Hshort k s H0 Hlt). lia.
  - specialize (Hshort k s H0 Hlt). lia.
  - apply IH. lia.
Qed.

(** With [0 <= overlap < chunk_size] the kept windows are the first ones,
    whatever the minimum. *)
Lemma run_starts res :
  0 <= O -> O < C -> 0 < W ->
  run 0 0 res ->
  forall i c, nth_error res i = Some c ->
    start_word c = Z.of_nat i * (C - O).
Proof.
  intros HO HOC HW Hrun i c Hi.
  destruct (Z.le_gt_cases M C) as [HM|HM].
  - destruct (run_stride 0 0 res HO HOC HM Hrun (Z.le_refl 0) HW) as [H _].
    rewrite (H _ _ Hi). lia.
  - rewrite (run_all_dropped 0 0 res) in Hi by (assumption || lia).
    destruct i; discriminate.
Qed.

End RunFacts.

(** ** Whitespace and words *)

Lemma lstrip_empty s : lstrip s = "" <-> whitespace_only s = true.
Proof.
  induction s as [|c r IH]; cbn; [tauto|].
  destruct (isspace c); cbn; [exact IH|]. split; discriminate.
Qed.

Lemma rstrip_keeps_head c r : isspace c = false -> rstrip (String c r) <> "".
Proof.
  intros Hc. cbn. rewrite Hc. destruct (rstrip r); discriminate.
Qed.

Lemma lstrip_head s :
  lstrip s = "" \/ exists c r, lstrip s = String c r /\ isspace c = false.
Proof.
  induction s as [|c r IH]; cbn; [now left|].
  destruct (isspace c) eqn:Hc; [exact IH|]. right. now exists c, r.
Qed.

(** The guard [not text or not text.strip()] fires exactly on empty and
    whitespace-only texts. *)
Lemma strip_empty_iff s : strip s = "" <-> whitespace_only s = true.
Proof.
  unfold strip. rewrite <- lstrip_empty. split.
  - intros H. destruct (lstrip_head s) as [H0|(c & r & Hs & Hc)]; [assumption|].
    rewrite Hs in H. now apply rstrip_keeps_head in H.
  - intros ->. reflexivity.
Qed.

Lemma words_of_blank s : strip s = "" -> words_of s = [].
Proof. unfold words_of, normalize. intros ->. reflexivity. Qed.

Lemma split_from_word cur s : cur <> "" -> split_from cur s <> [].
Proof.
  revert cur. induction s as [|c r IH]; intros cur Hcur; cbn.
  - destruct cur; [congruence|discriminate].
  - destruct (isspace c).
    + destruct cur; [congruence|discriminate].
    + apply IH. destruct cur; discriminate.
Qed.

(** A text that is not blank has at least one word. *)
Lemma words_of_nonblank s : strip s <> "" -> 0 < len (words_of s).
Proof.
  intros Hs. unfold words_of, normalize, strip in *.
  destruct (lstrip_head s) as [H0|(c & r & Hl & Hc)].
  - rewrite H0 in Hs. now cbn in Hs.
  - rewrite Hl in *.
    assert (Hr : exists r', rstrip (String c r) = String c r').
    { cbn. rewrite Hc. destruct (rstrip r); eexists; reflexivity. }
    destruct Hr as [r' ->]. unfold re_sub_ws, split. cbn. rewrite Hc. cbn.
    rewrite Hc.
    pose proof (split_from_word (String c "") (sub_ws_run false r')) as Hne.
    destruct (split_from (String c "") (sub_ws_run false r')); [|unfold len; cbn; lia].
    exfalso. apply Hne; [discriminate|reflexivity].
Qed.

(** ** [chunk_text] by cases *)

Section ChunkTextCases.
Variables (text src : string) (C O M : Z).

Local Abbreviation W := (len (words_of text)).

Lemma chunk_text_fuel_blank fuel :
  strip text = "" -> chunk_text_fuel fuel text src C O M = Some [].
Proof. unfold chunk_text_fuel. intros ->. reflexivity. Qed.

Lemma chunk_text_fuel_short fuel :
  0 < W -> W <= C ->
  chunk_text_fuel fuel text src C O M =
    if M <=? W then Some [mkChunk (normalize text) src 0 0 W W] else Some [].
Proof.
  intros HW HC. unfold chunk_text_fuel.
  destruct (strip text) eqn:Hs.
  - rewrite (words_of_blank _ Hs) in HW. cbn in HW. lia.
  - rewrite <- Hs. fold (normalize text). fold (words_of text).
    destruct (Z.leb_spec W C); [reflexivity|lia].
Qed.

Lemma chunk_text_fuel_long fuel :
  0 < W -> C < W ->
  chunk_text_fuel fuel text src C O M =
    chunk_loop (words_of text) src C O M fuel 0 0 [].
Proof.
  intros HW HC. unfold chunk_text_fuel.
  destruct (strip text) eqn:Hs.
  - rewrite (words_of_blank _ Hs) in HW. cbn in HW. lia.
  - rewrite <- Hs. fold (normalize text). fold (words_of text).
    destruct (Z.leb_spec W C); [lia|reflexivity].
Qed.

(** The function with its own bound on the iterations returns exactly
    what the loop returns when given any sufficient bound. *)
Lemma chunk_text_iff_fuel res :
  chunk_text text src C O M = Some res <->
  exists fuel, chunk_text_fuel fuel text src C O M = Some res.
Proof.
  unfold chunk_text. split; [intros H; eexists; exact H|]. intros [fuel H].
  destruct (strip text) eqn:Hs.
  - rewrite chunk_text_fuel_blank in * by assumption. assumption.
  - assert (HW : 0 < W) by (apply words_of_nonblank; congruence).
    destruct (Z.le_gt_cases W C) as [HC|HC].
    + rewrite chunk_text_fuel_short in * by assumption. assumption.
    + rewrite chunk_text_fuel_long in * by lia.
      eapply loop_fuel_enough; [lia|eassumption].
Qed.

Lemma chunk_text_fuel_mono fuel fuel' res :
  (fuel <= fuel')%nat ->
  chunk_text_fuel fuel text src C O M = Some res ->
  chunk_text_fuel fuel' text src C O M = Some res.
Proof.
  intros Hle H. destruct (strip text) eqn:Hs.
  - rewrite chunk_text_fuel_blank in * by assumption. assumption.
  - assert (HW : 0 < W) by (apply words_of_nonblank; congruence).
    destruct (Z.le_gt_cases W C) as [HC|HC].
    + rewrite chunk_text_fuel_short in * by assumption. assumption.
    + rewrite chunk_text_fuel_long in * by lia.
      eapply loop_fuel_mono; eassumption.
Qed.

(** A returned result is the result for every bound of at least one
    iteration per word. *)
Lemma chunk_text_enough_fuel res fuel :
  chunk_text text src C O M = Some res ->
  (List.length (words_of text) <= fuel)%nat ->
  chunk_text_fuel fuel text src C O M = Some res.
Proof.
  intros H Hle. eapply chunk_text_fuel_mono; [exact Hle|exact H].
Qed.

(** A long text is chunked by the loop; its result is a derivation of the
    loop relation from word 0. *)
Lemma chunk_text_long_run res :
  0 < W -> C < W ->
  chunk_text text src C O M = Some res ->
  loop_run (words_of text) src C O M 0 0 res.
Proof.
  intros HW HC H. unfold chunk_text in H.
  rewrite chunk_text_fuel_long in H by lia.
  eapply loop_sound; eassumption.
Qed.

(** With a positive stride the function returns. *)
Lemma chunk_text_total :
  0 < C - O -> exists res, chunk_text text src C O M = Some res.
Proof.
  intros Hs. unfold chunk_text. destruct (strip text) eqn:Hb.
  - rewrite chunk_text_fuel_blank by assumption. now eexists.
  - assert (HW : 0 < W) by (apply words_of_nonblank; congruence).
    destruct (Z.le_gt_cases W C) as [HC|HC].
    + rewrite chunk_text_fuel_short by assumption.
      destruct (M <=? W); now eexists.
    + rewrite chunk_text_fuel_long by lia.
      apply loop_terminates; [assumption|]. unfold len. lia.
Qed.

(** With a stride that is not positive the function never returns on a
    text longer than one window. *)
Lemma chunk_text_diverges :
  C - O <= 0 -> 0 < W -> C < W -> chunk_text text src C O M = None.
Proof.
  intros Hs HW HC. unfold chunk_text.
  rewrite chunk_text_fuel_long by lia. apply loop_diverges; lia.
Qed.

End ChunkTextCases.

(** ** The chunker: claims *)

(** C2. [chunk_text] returns the empty sequence on an empty or
    whitespace-only text; and when the normalised word count [W] satisfies
    [0 < W <= chunk_size] it returns exactly one chunk, spanning the whole
    document (words 0 to [W]), if [W >= min_chunk_size], and the empty
    sequence otherwise. *)
Theorem chunk_text_small_document (text src : string) (C O M : Z) :
  let W := len (words_of text) in
  (whitespace_only text = true -> chunk_text text src C O M = Some [])
  /\ (0 < W -> W <= C ->
      (M <= W ->
       chunk_text text src C O M = Some [mkChunk (normalize text) src 0 0 W W])
      /\ (W < M -> chunk_text text src C O M = Some [])).
Proof.
  intros W. split.
  - intros Hb. apply strip_empty_iff in Hb. unfold chunk_text.
    now apply chunk_text_fuel_blank.
  - intros HW HC. unfold chunk_text.
    rewrite chunk_text_fuel_short by assumption. fold W.
    split; intros HM; destruct (Z.leb_spec M W); try lia; reflexivity.
Qed.

Lemma chunk_text_small_document_witness :
  chunk_text "   " "policy.txt" 300 50 50 = Some []
  /\ chunk_text "alpha  beta gamma " "policy.txt" 5 1 2
     = Some [mkChunk "alpha beta gamma" "policy.txt" 0 0 3 3]
  /\ chunk_text "alpha  beta gamma " "policy.txt" 5 1 4 = Some [].
Proof.
  pose proof (chunk_text_small_document "   " "policy.txt" 300 50 50) as H1.
  pose proof (chunk_text_small_document "alpha  beta gamma " "policy.txt" 5 1 2) as H2.
  pose proof (chunk_text_small_document "alpha  beta gamma " "policy.txt" 5 1 4) as H3.
  cbv zeta in H1, H2, H3.
  destruct H1 as [H1 _], H2 as [_ H2], H3 as [_ H3].
  split; [apply H1; reflexivity|]. split.
  - apply H2; [reflexivity|vm_compute; discriminate|vm_compute; discriminate].
  - apply H3; [reflexivity|vm_compute; discriminate|reflexivity].
Defined.

(** C10. For every text and parameters with [chunk_size > 0] and
    [overlap < chunk_size], [chunk_text] terminates: it returns a result,
    and the loop needs at most one iteration per word of the text. *)
Theorem chunk_text_terminates (text src : string) (C O M : Z) :
  0 < C -> O < C ->
  exists chunks,
    chunk_text text src C O M = Some chunks
    /\ forall fuel, (List.length (words_of text) <= fuel)%nat ->
         chunk_text_fuel fuel text src C O M = Some chunks.
Proof.
  intros HC HO. destruct (chunk_text_total text src C O M) as [res Hres]; [lia|].
  exists res. split; [assumption|]. intros fuel Hfuel.
  now apply chunk_text_enough_fuel.
Qed.

Lemma chunk_text_terminates_witness :
  exists chunks,
    chunk_text "a b c d e f g" "policy.txt" 3 1 2 = Some chunks
    /\ forall fuel, (List.length (words_of "a b c d e f g") <= fuel)%nat ->
         chunk_text_fuel fuel "a b c d e f g" "policy.txt" 3 1 2 = Some chunks.
Proof.
  apply (chunk_text_terminates "a b c d e f g" "policy.txt" 3 1 2); lia.
Defined.

(** C7, as amended.  For a [chunk_size] that is not negative, every chunk
    returned by [chunk_text] satisfies [end_word - start_word = word_count]
    and the chunks appear with strictly increasing [start_word]; and with
    [overlap < chunk_size] the call does return. *)
Theorem chunk_text_invariant (text src : string) (C O M : Z) :
  0 <= C ->
  (forall chunks, chunk_text text src C O M = Some chunks ->
                  chunk_invariant chunks)
  /\ (O < C -> exists chunks, chunk_text text src C O M = Some chunks).
Proof.
  intros HC. split; [|intros HO; apply chunk_text_total; lia].
  intros chunks Hrun. unfold chunk_invariant.
  destruct (strip text) eqn:Hb.
  - unfold chunk_text in Hrun. rewrite chunk_text_fuel_blank in Hrun by assumption.
    injection Hrun as <-. split; constructor.
  - assert (HW : 0 < len (words_of text)) by (apply words_of_nonblank; congruence).
    destruct (Z.le_gt_cases (len (words_of text)) C) as [Hle|Hgt].
    + unfold chunk_text in Hrun. rewrite chunk_text_fuel_short in Hrun by assumption.
      destruct (M <=? len (words_of text)); injection Hrun as <-.
      * split; repeat constructor. cbn. lia.
      * split; constructor.
    + destruct (Z.lt_ge_cases 0 (C - O)) as [Hs|Hs].
      * apply chunk_text_long_run in Hrun; [|lia..].
        destruct (run_shape _ _ _ _ _ _ _ _ HC Hs Hrun (Z.le_refl 0)) as [H1 H2].
        split; [|assumption].
        eapply Forall_impl; [|exact H1]. cbn. tauto.
      * rewrite chunk_text_diverges in Hrun by lia. discriminate.
Qed.

Lemma chunk_text_invariant_witness :
  (forall chunks, chunk_text "a b c d e f g" "policy.txt" 3 1 2 = Some chunks ->
                  chunk_invariant chunks)
  /\ exists chunks, chunk_text "a b c d e f g" "policy.txt" 3 1 2 = Some chunks.
Proof.
  destruct (chunk_text_invariant "a b c d e f g" "policy.txt" 3 1 2) as [H1 H2];
    [lia|].
  split; [exact H1|apply H2; lia].
Defined.

(** C7 as stated fails for a negative [chunk_size]: the end of the window
    is then negative, the slice counts it from the end of the word list, and
    the chunk records [end_word = -1] for two words starting at word 0. *)
Lemma chunk_text_invariant_counterexample :
  chunk_text "a b c" "policy.txt" (-1) (-2) 2
    = Some [mkChunk "a b" "policy.txt" 0 0 (-1) 2]
  /\ ~ chunk_invariant [mkChunk "a b" "policy.txt" 0 0 (-1) 2].
Proof.
  split; [reflexivity|]. intros [H _]. inversion H as [|c l Hc Hl]; subst.
  cbn in Hc. lia.
Qed.

(** ** The windows of the specification *)

(** [cdiv a s <= j] says that [j] strides reach [a]. *)
Lemma cdiv_le (a s j : Z) : 0 < s -> (cdiv a s <= j <-> a <= j * s).
Proof.
  intros Hs. unfold cdiv.
  pose proof (Z.div_mod (a + s - 1) s ltac:(lia)) as Hd.
  pose proof (Z.mod_pos_bound (a + s - 1) s Hs) as Hm.
  split; intros H; nia.
Qed.

Lemma len_slice {A : Type} (l : list A) (a b : Z) :
  len (slice l a b)
  = Z.max 0 (slice_bound (len l) b - slice_bound (len l) a).
Proof.
  unfold slice, len.
  assert (Ha : 0 <= slice_bound (Z.of_nat (List.length l)) a
               <= Z.of_nat (List.length l)).
  { unfold slice_bound. destruct (Z.ltb_spec a 0); lia. }
  assert (Hb : 0 <= slice_bound (Z.of_nat (List.length l)) b
               <= Z.of_nat (List.length l)).
  { unfold slice_bound. destruct (Z.ltb_spec b 0); lia. }
  rewrite length_firstn, length_skipn. lia.
Qed.

Section Windows.
Variables (words : list string) (src : string) (C O M : Z).
Local Abbreviation W := (len words).
Local Abbreviation s := (C - O).
Local Abbreviation win := (fun j => window words src C 0 (Z.of_nat j * s)).
Local Abbreviation keep := (fun c => M <=? word_count c).

Lemma window_count_antitone (k k' a b : Z) :
  0 <= a -> a <= b -> b < W ->
  word_count (window words src C k' b) <= word_count (window words src C k a).
Proof.
  intros H0 Hab HbW. cbn. rewrite !len_slice. unfold slice_bound.
  repeat match goal with
         | |- context [?x <? 0] => destruct (Z.ltb_spec x 0)
         end; lia.
Qed.

Lemma renumber_window id start rest :
  renumber id (window words src C 0 start :: rest)
  = window words src C id start :: renumber (id + 1) rest.
Proof. reflexivity. Qed.

Lemma run_windows start id res :
  0 < s -> C < W ->
  loop_run words src C O M start id res ->
  forall j : nat, start = Z.of_nat j * s -> Z.of_nat j <= cdiv (W - C) s ->
    res = renumber id
            (filter keep (map win (seq j (window_count W C O - j)))).
Proof.
  intros Hs HCW.
  induction 1 as [st k Hx | st k Hlt Hk Hb | st k Hlt Hk Hb
                 | st k rest Hlt Hk Hb Hrest IH | st k rest Hlt Hk Hb Hrest IH];
    intros j Hj Hreach.
  - assert (window_count W C O - j = 0)%nat as ->; [|reflexivity].
    unfold window_count.
    assert (cdiv W s <= Z.of_nat j) by (apply cdiv_le; lia). lia.
  - cbn in Hb.
    assert (Hn : (window_count W C O - j = 1)%nat).
    { unfold window_count.
      assert (cdiv (W - C) s <= Z.of_nat j) by (apply cdiv_le; lia).
      assert (~ cdiv W s <= Z.of_nat j) by (rewrite cdiv_le by lia; lia).
      lia. }
    rewrite Hn. cbn [seq map filter]. rewrite <- Hj.
    change (word_count (window words src C 0 st))
      with (word_count (window words src C k st)).
    destruct (Z.leb_spec M (word_count (window words src C k st))); [|lia].
    reflexivity.
  - cbn in Hb.
    assert (Hn : (window_count W C O - j = 1)%nat).
    { unfold window_count.
      assert (cdiv (W - C) s <= Z.of_nat j) by (apply cdiv_le; lia).
      assert (~ cdiv W s <= Z.of_nat j) by (rewrite cdiv_le by lia; lia).
      lia. }
    rewrite Hn. cbn [seq map filter]. rewrite <- Hj.
    change (word_count (window words src C 0 st))
      with (word_count (window words src C k st)).
    destruct (Z.leb_spec M (word_count (window words src C k st))); [lia|].
    reflexivity.
  - cbn in Hb.
    assert (Hr : ~ cdiv (W - C) s <= Z.of_nat j) by (rewrite cdiv_le by lia; lia).
    assert (Hw : ~ cdiv W s <= Z.of_nat j) by (rewrite cdiv_le by lia; lia).
    assert (Hn : (window_count W C O - j = S (window_count W C O - S j))%nat).
    { unfold window_count. lia. }
    rewrite Hn. cbn [seq map filter]. rewrite <- Hj.
    change (word_count (window words src C 0 st))
      with (word_count (window words src C k st)).
    destruct (Z.leb_spec M (word_count (window words src C k st))); [|lia].
    rewrite renumber_window. f_equal. apply IH; lia.
  - cbn in Hb.
    assert (Hr : ~ cdiv (W - C) s <= Z.of_nat j) by (rewrite cdiv_le by lia; lia).
    assert (Hw : ~ cdiv W s <= Z.of_nat j) by (rewrite cdiv_le by lia; lia).
    assert (Hn : (window_count W C O - j = S (window_count W C O - S j))%nat).
    { unfold window_count. lia. }
    rewrite Hn. cbn [seq map filter]. rewrite <- Hj.
    change (word_count (window words src C 0 st))
      with (word_count (window words src C k st)).
    destruct (Z.leb_spec M (word_count (window words src C k st))); [lia|].
    apply IH; lia.
Qed.


End Windows.

(** A filter whose test, once false, stays false keeps a prefix. *)
Lemma filter_prefix {A : Type} (f : A -> bool) (l : list A) :
  StronglySorted (fun a b => f b = true -> f a = true) l ->
  filter f l = firstn (List.length (filter f l)) l.
Proof.
  induction 1 as [|x r Hr IH Hx]; [reflexivity|]. cbn.
  destruct (f x) eqn:E; cbn; [now rewrite <- IH|].
  assert (Hnone : filter f r = []).
  { clear IH Hr. induction r as [|y r IHr]; [reflexivity|]. cbn.
    inversion Hx as [|y' r' Hy Hr']; subst.
    destruct (f y) eqn:Ey; [specialize (Hy eq_refl); congruence|].
    now apply IHr. }
  now rewrite Hnone.
Qed.

Lemma sorted_map_seq {A : Type} (R : A -> A -> Prop) (g : nat -> A)
  (j n : nat) :
  (forall a b, (j <= a)%nat -> (a < b)%nat -> (b < j + n)%nat ->
               R (g a) (g b)) ->
  StronglySorted R (map g (seq j n)).
Proof.
  revert j. induction n as [|n IH]; intros j H; [constructor|].
  cbn. constructor.
  - apply IH. intros a b Ha Hab Hb. apply H; lia.
  - apply Forall_forall. intros y Hy. apply in_map_iff in Hy as (b & <- & Hb).
    apply in_seq in Hb. apply H; lia.
Qed.

Lemma nth_error_renumber (l : list Chunk) (id : Z) (i : nat) (c : Chunk) :
  nth_error (renumber id l) i = Some c ->
  exists c0, nth_error l i = Some c0
             /\ c = mkChunk (text c0) (source c0) (id + Z.of_nat i)
                      (start_word c0) (end_word c0) (word_count c0).
Proof.
  revert id i. induction l as [|x l IH]; intros id i Hi.
  - destruct i; discriminate.
  - destruct i as [|i]; cbn in Hi.
    + injection Hi as <-. exists x. split; [reflexivity|].
      now rewrite Z.add_0_r.
    + destruct (IH _ _ Hi) as (c0 & H0 & ->). exists c0.
      split; [exact H0|]. f_equal. lia.
Qed.

Section SlidingWindows.
Variables (words : list string) (src : string) (C O M : Z).
Local Abbreviation W := (len words).
Local Abbreviation s := (C - O).
Local Abbreviation win := (fun j => window words src C 0 (Z.of_nat j * s)).
Local Abbreviation keep := (fun c : Chunk => M <=? word_count c).

(** The chunks of [sliding_windows] are the first windows, in order. *)
Lemma sliding_windows_nth (i : nat) (c : Chunk) :
  0 < s ->
  nth_error (sliding_windows words src C O M) i = Some c ->
  c = window words src C (Z.of_nat i) (Z.of_nat i * s)
  /\ M <= word_count c
  /\ (i < window_count W C O)%nat.
Proof.
  intros Hs Hi. unfold sliding_windows in Hi.
  apply nth_error_renumber in Hi as (c0 & H0 & ->).
  set (l := map win (seq 0 (window_count W C O))) in *.
  assert (Hsorted : StronglySorted
                      (fun a b => keep b = true -> keep a = true) l).
  { apply sorted_map_seq. intros a b _ Hab Hb. cbn beta.
    rewrite !Z.leb_le. intros Hk.
    assert (HbW : Z.of_nat b * s < W).
    { unfold window_count in Hb.
      assert (~ cdiv W s <= Z.of_nat b) by lia.
      rewrite cdiv_le in H by lia. lia. }
    pose proof (window_count_antitone words src C 0 0
                  (Z.of_nat a * s) (Z.of_nat b * s)
                  ltac:(nia) ltac:(nia) HbW). lia. }
  assert (Hkeep : keep c0 = true).
  { apply nth_error_In in H0. now apply filter_In in H0. }
  rewrite (filter_prefix keep l Hsorted) in H0.
  assert (Hlt : (i < List.length (filter keep l))%nat).
  { apply nth_error_Some. rewrite (filter_prefix keep l Hsorted).
    congruence. }
  rewrite nth_error_firstn in H0.
  destruct (Nat.ltb_spec i (List.length (filter keep l))); [|lia].
  assert (Hil : (i < window_count W C O)%nat).
  { pose proof (filter_length_le keep l). unfold l in *.
    rewrite length_map, length_seq in *. lia. }
  unfold l in H0. rewrite nth_error_map, nth_error_seq in H0.
  destruct (Nat.ltb_spec i (window_count W C O)); [|lia].
  cbn in H0. injection H0 as <-. cbn. split; [|split].
  - reflexivity.
  - apply Z.leb_le in Hkeep. exact Hkeep.
  - exact Hil.
Qed.

End SlidingWindows.

(** C1, as amended.  For every text whose normalised word count [W] exceeds
    [chunk_size], with [overlap < chunk_size] and minimum [M], [chunk_text]
    returns exactly the windows of [sliding_windows]: the windows that
    start at 0, [C-O], [2(C-O)], ... and end [chunk_size] words later or
    at [W], up to the first window whose end reaches [W], without those of
    fewer than [M] words.  So the chunks start at 0, [C-O], [2(C-O)], ...,
    [chunk_id] counts them from 0, and each has at least [M] words; and,
    provided [0 <= overlap] and [M <= chunk_size], their ranges cover the
    words [[0, W)] except possibly a trailing remainder of fewer than [M]
    words. *)
Theorem chunk_text_sliding_window (text src : string) (C O M : Z) :
  C < len (words_of text) -> O < C ->
  let chunks := sliding_windows (words_of text) src C O M in
  chunk_text text src C O M = Some chunks
  /\ window_starts chunks C O
  /\ Forall (fun c => M <= word_count c
                      /\ end_word c
                         = Z.min (start_word c + C) (len (words_of text)))
       chunks
  /\ (0 <= O -> M <= C -> covers_except_tail chunks (len (words_of text)) M).
Proof.
  intros HW HOC chunks.
  assert (Hs : 0 < C - O) by lia.
  assert (Hrun : chunk_text text src C O M = Some chunks).
  { destruct (chunk_text_total text src C O M Hs) as [res Hres].
    rewrite Hres. f_equal.
    destruct (strip text) eqn:Hb.
    - unfold chunk_text in Hres.
      rewrite chunk_text_fuel_blank in Hres by assumption.
      injection Hres as <-. unfold chunks, sliding_windows, window_count.
      rewrite (words_of_blank text Hb).
      change (len (@nil string)) with 0.
      assert (cdiv 0 (C - O) <= 0) by (apply cdiv_le; lia).
      assert (Z.to_nat (Z.min (cdiv 0 (C - O)) (cdiv (0 - C) (C - O) + 1))
              = 0%nat) as -> by lia.
      reflexivity.
    - assert (HW0 : 0 < len (words_of text))
        by (apply words_of_nonblank; congruence).
      pose proof (chunk_text_long_run _ _ _ _ _ _ HW0 HW Hres) as Hr.
      rewrite (run_windows _ _ _ _ _ _ _ _ Hs HW Hr 0%nat); [|lia|].
      + now rewrite Nat.sub_0_r.
      + assert (~ cdiv (len (words_of text) - C) (C - O) <= -1)
          by (rewrite cdiv_le by lia; lia). lia. }
  split; [exact Hrun|]. split; [|split].
  - intros i c Hi.
    destruct (sliding_windows_nth _ _ _ _ _ _ _ Hs Hi) as (-> & _ & _).
    cbn. split; [lia|reflexivity].
  - apply Forall_forall. intros c Hc. apply In_nth_error in Hc as [i Hi].
    destruct (sliding_windows_nth _ _ _ _ _ _ _ Hs Hi) as (-> & Hm & _).
    split; [exact Hm|reflexivity].
  - intros HO HMC.
    assert (HW0 : 0 < len (words_of text)) by lia.
    pose proof (chunk_text_long_run _ _ _ _ _ _ HW0 HW Hrun) as Hr.
    destruct (run_stride _ _ _ _ _ _ _ _ HO HOC HMC Hr (Z.le_refl 0) HW0)
      as [_ (e & He & Htail & Hcov)].
    exists e. split; [lia|]. split; assumption.
Qed.

Lemma chunk_text_sliding_window_witness :
  chunk_text "a b c d e f g h" "policy.txt" 3 1 2
  = Some [mkChunk "a b c" "policy.txt" 0 0 3 3;
          mkChunk "c d e" "policy.txt" 1 2 5 3;
          mkChunk "e f g" "policy.txt" 2 4 7 3;
          mkChunk "g h" "policy.txt" 3 6 8 2]
  /\ sliding_window_chunks "a b c d e f g h" "policy.txt" 3 1 2.
Proof.
  destruct (chunk_text_sliding_window "a b c d e f g h" "policy.txt" 3 1 2)
    as (H1 & H2 & H3 & H4); [vm_compute; reflexivity|lia|].
  split; [exact H1|].
  exists (sliding_windows (words_of "a b c d e f g h") "policy.txt" 3 1 2).
  split; [exact H1|]. split; [exact H2|]. split.
  - eapply Forall_impl; [|exact H3]. cbn beta. tauto.
  - apply H4; lia.
Defined.

(** C1 as stated fails when [min_chunk_size] exceeds [chunk_size]: every
    window is then dropped, and none of the four words is covered although
    the minimum is three.  It also fails for a negative overlap: the
    windows then leave gaps, here the third of five words. *)
Lemma chunk_text_sliding_window_counterexample :
  (2 < len (words_of "a b c d") /\ 0 < 2
   /\ chunk_text "a b c d" "policy.txt" 2 0 3 = Some []
   /\ ~ sliding_window_chunks "a b c d" "policy.txt" 2 0 3)
  /\ (2 < len (words_of "a b c d e") /\ -1 < 2
      /\ chunk_text "a b c d e" "policy.txt" 2 (-1) 1
         = Some [mkChunk "a b" "policy.txt" 0 0 2 2;
                 mkChunk "d e" "policy.txt" 1 3 5 2]
      /\ ~ sliding_window_chunks "a b c d e" "policy.txt" 2 (-1) 1).
Proof.
  split.
  - split; [reflexivity|]. split; [lia|]. split; [reflexivity|].
    intros (chunks & Hrun & _ & _ & (e & He & Htail & Hcov)).
    vm_compute in Hrun. injection Hrun as <-.
    change (len (words_of "a b c d")) with 4 in *.
    destruct (Hcov 0) as (c & [] & _). lia.
  - split; [reflexivity|]. split; [lia|]. split; [reflexivity|].
    intros (chunks & Hrun & _ & _ & (e & He & Htail & Hcov)).
    vm_compute in Hrun. injection Hrun as <-.
    change (len (words_of "a b c d e")) with 5 in *.
    destruct (Hcov 2) as (c & Hin & Hc); [lia|].
    destruct Hin as [<-|[<-|[]]]; cbn in Hc; lia.
Qed.

(** ** The order of the search results *)

Lemma in_firstn_in {A : Type} (l : list A) n x : In x (firstn n l) -> In x l.
Proof.
  intros H. rewrite <- (firstn_skipn n l). apply in_or_app. now left.
Qed.

Lemma in_skipn_in {A : Type} (l : list A) n x : In x (skipn n l) -> In x l.
Proof.
  intros H. rewrite <- (firstn_skipn n l). apply in_or_app. now right.
Qed.

Section Ranking.
Local Open Scope R_scope.

Lemma ranks_firstb_spec a b : ranks_firstb a b = true <-> ranks_first a b.
Proof.
  unfold ranks_firstb, ranks_first.
  destruct (Rlt_dec (snd b) (snd a)) as [Hlt|Hnlt]; [tauto|].
  destruct (Req_dec_T (snd a) (snd b)) as [Heq|Hne].
  - rewrite Z.leb_le. tauto.
  - split; [discriminate|]. intros [H|[H _]]; contradiction.
Qed.

Lemma ranks_first_total a b : ranks_first a b \/ ranks_first b a.
Proof.
  unfold ranks_first.
  destruct (Rtotal_order (snd a) (snd b)) as [H|[H|H]]; [tauto| |tauto].
  destruct (Z.le_ge_cases (fst a) (fst b)); [left|right]; right; auto.
Qed.

Lemma ranks_first_trans a b c :
  ranks_first a b -> ranks_first b c -> ranks_first a c.
Proof.
  unfold ranks_first. intros [H1|[H1 H1']] [H2|[H2 H2']].
  - left. lra.
  - left. lra.
  - left. lra.
  - right. split; [lra|lia].
Qed.

Lemma insert_hit_perm a l : Permutation (insert_hit a l) (a :: l).
Proof.
  induction l as [|b r IH]; cbn; [reflexivity|].
  destruct (ranks_firstb a b); [reflexivity|].
  rewrite IH. apply perm_swap.
Qed.

Lemma sort_hits_perm l : Permutation (sort_hits l) l.
Proof.
  induction l as [|a r IH]; cbn; [reflexivity|].
  rewrite insert_hit_perm. now constructor.
Qed.

Lemma insert_hit_sorted a l :
  StronglySorted ranks_first l -> StronglySorted ranks_first (insert_hit a l).
Proof.
  induction 1 as [|b r Hr IH Hb]; cbn; [repeat constructor|].
  destruct (ranks_firstb a b) eqn:Hab.
  - apply ranks_firstb_spec in Hab. constructor; [now constructor|].
    constructor; [assumption|].
    eapply Forall_impl; [|exact Hb]. intros c. now apply ranks_first_trans.
  - assert (Hba : ranks_first b a).
    { destruct (ranks_first_total a b) as [H|H]; [|assumption].
      apply ranks_firstb_spec in H. congruence. }
    constructor; [assumption|].
    apply (Permutation_Forall (x := a :: r)).
    + symmetry. apply insert_hit_perm.
    + now constructor.
Qed.

Lemma sort_hits_sorted l : StronglySorted ranks_first (sort_hits l).
Proof.
  induction l as [|a r IH]; cbn; [constructor|]. now apply insert_hit_sorted.
Qed.

(** A prefix of a sorted list, and what it leaves. *)
Lemma sorted_split (l : list hit) n :
  StronglySorted ranks_first l ->
  StronglySorted ranks_first (firstn n l)
  /\ forall h r, In h (firstn n l) -> In r (skipn n l) -> ranks_first h r.
Proof.
  intros Hs. revert n.
  induction Hs as [|a l Hl IH Ha]; intros [|n]; cbn;
    try (split; [constructor|contradiction]).
  destruct (IH n) as [IH1 IH2]. split.
  - constructor; [assumption|].
    rewrite Forall_forall in *. intros x Hx. apply Ha.
    eapply in_firstn_in; eassumption.
  - intros h r [<-|Hh] Hr.
    + rewrite Forall_forall in Ha. apply Ha. eapply in_skipn_in; eassumption.
    + now apply IH2.
Qed.

End Ranking.

(** ** Vectors *)

Section Vectors.
Local Open Scope R_scope.

Lemma renorm_L2_length (x : vector) :
  List.length (renorm_L2 x) = List.length x.
Proof.
  unfold renorm_L2. destruct (Rlt_dec 0 (norm_L2sqr x)); [|reflexivity].
  apply length_map.
Qed.


End Vectors.

(** ** The index and its search *)

Section IndexFacts.

Lemma create_faiss_index_some (e : ndarray) :
  size e <> 0 ->
  create_faiss_index e
    = Some (mkIndex (List.length (hd [] (normalize_L2 e))) (normalize_L2 e)).
Proof.
  intros Hs. unfold create_faiss_index.
  destruct (Z.eqb_spec (size e) 0); [contradiction|reflexivity].
Qed.

(** The candidates of a search: one per stored vector, by position. *)
Lemma combine_positions {B : Type} (f : vector -> B) (x : list vector) :
  forall a p s,
    In (p, s) (combine (map Z.of_nat (seq a (List.length x))) (map f x)) <->
    exists i v, p = Z.of_nat (a + i) /\ nth_error x i = Some v /\ s = f v.
Proof.
  induction x as [|v0 x IH]; intros a p s; cbn.
  - split; [contradiction|]. intros (i & v & _ & Hi & _). destruct i; discriminate.
  - rewrite IH. split.
    + intros [H|(i & v & -> & Hi & ->)].
      * injection H as <- <-. exists 0%nat, v0. rewrite Nat.add_0_r. auto.
      * exists (S i), v. repeat split; [f_equal; lia|assumption].
    + intros ([|i] & v & -> & Hi & ->).
      * injection Hi as <-. left. now rewrite Nat.add_0_r.
      * right. exists i, v. repeat split; [f_equal; lia|assumption].
Qed.

Lemma in_inner_products q x p s :
  In (p, s) (inner_products q x) <->
  exists i v, p = Z.of_nat i /\ nth_error x i = Some v /\ s = dot q v.
Proof. unfold inner_products. apply (combine_positions (dot q) x 0). Qed.

Lemma length_inner_products q x :
  List.length (inner_products q x) = List.length x.
Proof.
  unfold inner_products, hit.
  rewrite length_combine, !length_map, length_seq. lia.
Qed.

(** The search succeeds on a query of the index's dimension and a positive
    [k], with the [k] best candidates in order. *)
Lemma search_some index q k :
  List.length q = d index -> 0 < k ->
  search index q k
    = Some (firstn (Z.to_nat k) (sort_hits (inner_products q (xb index)))).
Proof.
  intros Hd Hk. unfold search.
  rewrite (proj2 (Nat.eqb_eq _ _) Hd), (proj2 (Z.ltb_lt _ _) Hk). reflexivity.
Qed.

End IndexFacts.

(** ** The vector index: claims *)

(** The search step on an aligned index: the first [min(k, n)] candidates
    in ranking order. *)
Lemma search_hits_eq (index : IndexFlatIP) (q : vector)
  (chunks : list Chunk) (k : Z) :
  0 < ntotal index -> len chunks = ntotal index ->
  List.length q = d index -> 1 <= k ->
  search_hits q index chunks k
  = Some (firstn (Z.to_nat (Z.min k (ntotal index)))
            (sort_hits (inner_products (renorm_L2 q) (xb index)))).
Proof.
  intros Hn Hal Hd Hk. unfold search_hits.
  rewrite search_some; [|now rewrite renorm_L2_length|lia].
  rewrite Hal, Z.min_id. reflexivity.
Qed.

Lemma length_sort_hits (l : list hit) :
  List.length (sort_hits l) = List.length l.
Proof. apply Permutation_length, sort_hits_perm. Qed.

(** Its hits are [min(k, n)] positions of the index. *)
Lemma search_hits_valid (index : IndexFlatIP) (q : vector)
  (chunks : list Chunk) (k : Z) :
  0 < ntotal index -> len chunks = ntotal index ->
  List.length q = d index -> 1 <= k ->
  exists hits,
    search_hits q index chunks k = Some hits
    /\ len hits = Z.min k (ntotal index)
    /\ forall p s, In (p, s) hits -> 0 <= p < ntotal index.
Proof.
  intros Hn Hal Hd Hk. eexists. split; [now apply search_hits_eq|]. split.
  - unfold ntotal, len in *.
    rewrite length_firstn, length_sort_hits, length_inner_products. lia.
  - intros p s Hin. apply in_firstn_in in Hin.
    apply (Permutation_in _ (sort_hits_perm _)) in Hin.
    apply in_inner_products in Hin as (i & v & -> & Hi & _).
    assert (Hlt : (i < List.length (xb index))%nat)
      by (apply nth_error_Some; congruence).
    unfold ntotal, len. lia.
Qed.




(** ** Retrieval *)

(** On valid positions the loop of [retrieve_top_k_chunks] keeps every hit:
    the [j]-th hit becomes the [j]-th result, with the chunk of its
    position, its score, and the rank [j + 1]. *)
Lemma collect_valid (chunks : list Chunk) (hits : list hit) :
  (forall p s, In (p, s) hits -> 0 <= p < len chunks) ->
  forall r,
    List.length (collect chunks r hits) = List.length hits
    /\ forall j p s, nth_error hits j = Some (p, s) ->
         exists c, nth_error chunks (Z.to_nat p) = Some c
                   /\ nth_error (collect chunks r hits) j
                      = Some (mkRanked c s (r + Z.of_nat j + 1)).
Proof.
  induction hits as [|[p0 s0] hits IH]; intros Hvalid r.
  - split; [reflexivity|]. intros [|j]; discriminate.
  - assert (Hp0 : 0 <= p0 < len chunks) by (apply (Hvalid p0 s0); now left).
    destruct (IH (fun p s H => Hvalid p s (or_intror H)) (r + 1)) as [IHl IHn].
    assert (Hc : exists c, nth_error chunks (Z.to_nat p0) = Some c).
    { destruct (nth_error chunks (Z.to_nat p0)) as [c|] eqn:Hn; [now exists c|].
      apply nth_error_None in Hn. unfold len in Hp0. lia. }
    destruct Hc as [c0 Hc0]. cbn [collect].
    destruct (Z.leb_spec 0 p0); [|lia].
    destruct (Z.ltb_spec p0 (len chunks)); [|lia]. cbn [andb]. rewrite Hc0.
    split; [cbn; now rewrite IHl|].
    intros [|j] p s Hj.
    + injection Hj as <- <-. exists c0. split; [assumption|]. cbn.
      do 2 f_equal. lia.
    + cbn in Hj. destruct (IHn _ _ _ Hj) as (c & Hc & Hr).
      exists c. split; [assumption|]. cbn. rewrite Hr. do 2 f_equal. lia.
Qed.

(** On a chunk list that is not empty, retrieval is the loop over the hits
    of the search step. *)
Lemma retrieve_top_k_chunks_eq (index : IndexFlatIP) (q : vector)
  (chunks : list Chunk) (k : Z) (hits : list hit) :
  chunks <> [] -> search_hits q index chunks k = Some hits ->
  retrieve_top_k_chunks q (Some index) chunks k = collect chunks 0 hits.
Proof.
  intros Hne Hs. unfold retrieve_top_k_chunks. rewrite Hs.
  destruct (Z.eqb_spec (len chunks) 0) as [Hz|]; [|reflexivity].
  destruct chunks; [congruence|]. unfold len in Hz. cbn in Hz. lia.
Qed.

(** ** Retrieval over the library as a parameter *)

Section LibraryFacts.
Variable number float32 : Type.
Variable astype_float32 : number -> float32.
Variable renorm_L2 : list float32 -> list float32.
Variable search :
  FaissApi.IndexFlatIP float32 -> list float32 -> Z
  -> option (nat -> FaissApi.hit float32).

Local Abbreviation collect := (@FaissApi.collect float32).
Local Abbreviation hit := (FaissApi.hit float32).
Local Abbreviation RankedChunk := (FaissApi.RankedChunk float32).
Local Abbreviation rank := (@FaissApi.rank float32).
Local Abbreviation valid :=
  (fun (chunks : list Chunk) (h : hit) => 0 <= fst h < len chunks).

(** A valid position holds a chunk. *)
Lemma nth_error_valid (chunks : list Chunk) (idx : Z) :
  0 <= idx < len chunks -> exists c, nth_error chunks (Z.to_nat idx) = Some c.
Proof.
  intros H. destruct (nth_error chunks (Z.to_nat idx)) eqn:E; [eauto|].
  apply nth_error_None in E. unfold len in H. lia.
Qed.

(** What the loop appends: one result per slot with a valid position. *)
Lemma collect_slots (chunks : list Chunk) (hits : list hit) :
  forall r rc,
    In rc (collect chunks r hits)
    <-> exists i idx score,
          nth_error hits i = Some (idx, score)
          /\ 0 <= idx < len chunks
          /\ nth_error chunks (Z.to_nat idx) = Some (FaissApi.chunk rc)
          /\ FaissApi.similarity_score rc = score
          /\ rank rc = r + Z.of_nat i + 1.
Proof.
  induction hits as [|[idx score] rest IH]; intros r rc; cbn [FaissApi.collect].
  - split; [intros []|]. intros (i & ? & ? & Hi & _). destruct i; discriminate.
  - assert (Hrest : In rc (collect chunks (r + 1) rest)
                    <-> exists i idx' score',
                          nth_error ((idx, score) :: rest) (S i)
                            = Some (idx', score')
                          /\ 0 <= idx' < len chunks
                          /\ nth_error chunks (Z.to_nat idx')
                             = Some (FaissApi.chunk rc)
                          /\ FaissApi.similarity_score rc = score'
                          /\ rank rc = r + Z.of_nat (S i) + 1).
    { rewrite IH. split; intros (i & a & b & H1 & H2 & H3 & H4 & H5);
        exists i, a, b; repeat split; try assumption; cbn in *; lia. }
    destruct (Z.leb_spec 0 idx) as [H0|H0];
      [destruct (Z.ltb_spec idx (len chunks)) as [H1|H1]|]; cbn [andb].
    + destruct (nth_error_valid chunks idx ltac:(lia)) as [c Hc]. rewrite Hc.
      cbn [In]. rewrite Hrest. split.
      * intros [<-|(i & H)].
        -- exists 0%nat, idx, score. cbn.
           repeat split; try assumption; try reflexivity; lia.
        -- exists (S i). exact H.
      * intros ([|i] & a & b & H2 & H3 & H4 & H5 & H6).
        -- left. cbn in H2. injection H2 as <- <-. destruct rc as [c' s' r'].
           cbn in *. f_equal; [congruence|congruence|lia].
        -- right. exists i, a, b. repeat split; try assumption; lia.
    + rewrite Hrest. split.
      * intros (i & H). exists (S i). exact H.
      * intros ([|i] & a & b & H2 & H3 & H4 & H5 & H6).
        -- cbn in H2. injection H2 as <- <-. lia.
        -- exists i, a, b. repeat split; try assumption; lia.
    + rewrite Hrest. split.
      * intros (i & H). exists (S i). exact H.
      * intros ([|i] & a & b & H2 & H3 & H4 & H5 & H6).
        -- cbn in H2. injection H2 as <- <-. lia.
        -- exists i, a, b. repeat split; try assumption; lia.
Qed.

(** The results carry increasing ranks. *)
Lemma collect_ranked (chunks : list Chunk) (hits : list hit) : forall r,
  StronglySorted (fun a b => rank a < rank b) (collect chunks r hits)
  /\ Forall (fun rc => r < rank rc) (collect chunks r hits).
Proof.
  induction hits as [|[idx score] rest IH]; intros r; cbn [FaissApi.collect].
  - split; constructor.
  - destruct (IH (r + 1)) as [IHs IHr].
    assert (Hweak : Forall (fun rc => r < rank rc)
                      (collect chunks (r + 1) rest)).
    { eapply Forall_impl; [|exact IHr]. cbn beta. intros; lia. }
    destruct ((0 <=? idx) && (idx <? len chunks)); [|now split].
    destruct (nth_error chunks (Z.to_nat idx)) as [c|]; [|now split].
    split.
    + constructor; [exact IHs|]. exact IHr.
    + constructor; [cbn; lia|exact Hweak].
Qed.

(** As many results as slots with a valid position. *)
Lemma collect_count (chunks : list Chunk) (hits : list hit) : forall r,
  len (collect chunks r hits) <= len hits
  /\ (Forall (valid chunks) hits -> len (collect chunks r hits) = len hits).
Proof.
  unfold len.
  induction hits as [|[idx score] rest IH]; intros r; cbn [FaissApi.collect].
  - split; [cbn; lia|reflexivity].
  - destruct (IH (r + 1)) as [IHle IHeq]. split.
    + destruct ((0 <=? idx) && (idx <? len chunks)); [|cbn [List.length]; lia].
      destruct (nth_error chunks (Z.to_nat idx)); cbn [List.length]; lia.
    + intros Hv. inversion Hv as [|h l Hh Hl]; subst. cbn [fst] in Hh.
      destruct (Z.leb_spec 0 idx); [|lia].
      destruct (Z.ltb_spec idx (len chunks)); [|unfold len in *; lia].
      cbn [andb].
      destruct (nth_error_valid chunks idx Hh) as [c ->].
      cbn [List.length]. specialize (IHeq Hl). lia.
Qed.

End LibraryFacts.

(** C6, as amended.  For every non-empty chunk collection with an aligned
    index, every query and every [k], retrieval asks the library for
    [min(k, total_chunks)] results.  When the search raises, the result is
    empty.  Otherwise each result slot [(position, score)] whose position
    is a valid index of the chunk list is mapped to [chunks[position]] with
    that similarity score and the 1-based number of the slot as rank, in
    the order of the slots; a slot without valid position is skipped.  So
    the result has at most [min(k, total_chunks)] elements, and exactly
    that many, at least one, when [k >= 1] and every slot holds a valid
    position. *)
Theorem retrieve_maps_hits_to_chunks (number float32 : Type)
  (astype_float32 : number -> float32)
  (renorm_L2 : list float32 -> list float32)
  (search : FaissApi.IndexFlatIP float32 -> list float32 -> Z
            -> option (nat -> FaissApi.hit float32))
  (query_embedding : list number) (index : FaissApi.IndexFlatIP float32)
  (chunks : list Chunk) (k : Z) :
  chunks <> [] -> FaissApi.ntotal index = len chunks ->
  let num_search := Z.min k (len chunks) in
  let top_chunks :=
    FaissApi.retrieve_top_k_chunks astype_float32 renorm_L2 search
      query_embedding (Some index) chunks k in
  match search index (renorm_L2 (map astype_float32 query_embedding))
          num_search with
  | None => top_chunks = []
  | Some slots =>
      let hits := map slots (seq 0 (Z.to_nat num_search)) in
      (forall rc, In rc top_chunks
                  <-> exists i, FaissApi.maps_slot chunks hits i rc)
      /\ StronglySorted (fun a b => FaissApi.rank a < FaissApi.rank b)
           top_chunks
      /\ len top_chunks <= Z.max 0 num_search
      /\ (Forall (fun h => 0 <= fst h < len chunks) hits -> 1 <= k ->
          len top_chunks = num_search /\ top_chunks <> [])
  end.
Proof.
  intros Hne Hal num_search top_chunks.
  assert (Hpos : 0 < len chunks).
  { destruct chunks; [congruence|unfold len; cbn; lia]. }
  assert (Hnum : Z.min k (Z.min (len chunks) (FaissApi.ntotal index))
                 = num_search) by (unfold num_search; lia).
  unfold top_chunks, FaissApi.retrieve_top_k_chunks, FaissApi.search_hits.
  destruct (Z.eqb_spec (len chunks) 0); [lia|]. rewrite Hnum.
  destruct (search index _ num_search) as [slots|]; [|reflexivity].
  set (hits := map slots (seq 0 (Z.to_nat num_search))).
  assert (Hlen : len hits = Z.max 0 num_search).
  { unfold hits, len. rewrite length_map, length_seq. lia. }
  destruct (collect_count float32 chunks hits 0) as [Hle Heq].
  split; [|split; [|split]].
  - intros rc. rewrite collect_slots. unfold FaissApi.maps_slot.
    split; intros (i & idx & score & H); exists i, idx, score;
      rewrite Z.add_0_l in *; exact H.
  - apply collect_ranked.
  - lia.
  - intros Hv Hk. specialize (Heq Hv).
    assert (Hn : len (FaissApi.collect chunks 0 hits) = num_search)
      by (unfold num_search in *; lia).
    split; [exact Hn|]. intros Hnil. rewrite Hnil in Hn.
    unfold num_search, len in Hn. cbn in Hn. unfold len in Hpos. lia.
Qed.

Lemma retrieve_maps_hits_to_chunks_witness :
  let chunks := [mkChunk "a b" "policy.txt" 0 0 2 2;
                 mkChunk "b c" "policy.txt" 1 1 3 2;
                 mkChunk "c d" "policy.txt" 2 2 4 2] in
  let index := FaissApi.mkIndex 2 [[1; 0]; [0; 1]; [1; 1]] in
  let search := fun (_ : FaissApi.IndexFlatIP Z) (_ : list Z) (_ : Z) =>
    Some (fun i => nth i [(1, 9); (-1, 0); (0, 7)] (-1, 0)) in
  FaissApi.retrieve_top_k_chunks (fun x : Z => x) (fun x => x) search
    [1; 0] (Some index) chunks 5
  = [FaissApi.mkRanked (mkChunk "b c" "policy.txt" 1 1 3 2) 9 1;
     FaissApi.mkRanked (mkChunk "a b" "policy.txt" 0 0 2 2) 7 3]
  /\ forall rc,
       In rc (FaissApi.retrieve_top_k_chunks (fun x : Z => x) (fun x => x)
                search [1; 0] (Some index) chunks 5)
       <-> exists i,
             FaissApi.maps_slot chunks [(1, 9); (-1, 0); (0, 7)] i rc.
Proof.
  intros chunks index search. split; [reflexivity|].
  pose proof (retrieve_maps_hits_to_chunks Z Z (fun x => x) (fun x => x)
                search [1; 0] index chunks 5
                ltac:(discriminate) eq_refl) as H.
  cbn in H. apply H.
Defined.

(** C6 as stated fails when the search raises, as for a query of another
    dimension than the index: the exception is caught and the result is
    empty, although there are chunks and the index is aligned. *)
Lemma retrieve_maps_hits_to_chunks_counterexample :
  let chunks := [mkChunk "a b" "policy.txt" 0 0 2 2;
                 mkChunk "b c" "policy.txt" 1 1 3 2] in
  let search := fun (index : FaissApi.IndexFlatIP Z) (q : list Z) (_ : Z) =>
    if (List.length q =? FaissApi.d index)%nat
    then Some (fun i => (Z.of_nat i, 0)) else None in
  exists index,
    FaissApi.create_faiss_index (fun x : Z => x) (fun x => x)
      [[1; 0]; [0; 1]] = Some index
    /\ FaissApi.ntotal index = len chunks
    /\ FaissApi.retrieve_top_k_chunks (fun x : Z => x) (fun x => x) search
         [1; 0; 0] (Some index) chunks 5 = []
    /\ len (@nil (FaissApi.RankedChunk Z)) <> Z.min 5 (len chunks).
Proof.
  intros chunks search. eexists. split; [reflexivity|].
  split; [reflexivity|]. split; [reflexivity|]. discriminate.
Qed.

(** ** The fallback of the LLM call *)

Lemma str_length_append (s1 s2 : string) :
  String.length (s1 ++ s2)%string = (String.length s1 + String.length s2)%nat.
Proof. induction s1 as [|c s1 IH]; cbn; [reflexivity|now rewrite IH]. Qed.

Lemma str_length_of_list (l : list ascii) :
  String.length (string_of_list_ascii l) = List.length l.
Proof. induction l as [|c l IH]; cbn; [reflexivity|now rewrite IH]. Qed.

Lemma str_slice_width (s : string) (a b : Z) :
  0 <= a -> a <= b -> str_len (str_slice s a b) <= b - a.
Proof.
  intros Ha Hab. unfold str_len, str_slice. rewrite str_length_of_list.
  now apply (len_slice_width (list_ascii_of_string s)).
Qed.

(** The fallback response carries the query, and the raw text cut to 500
    characters followed by three dots. *)
Lemma create_fallback_response_spec {Json : Type} (query raw : string) :
  Llm.fallback_for Json query raw
    (Llm.FallbackResponse Json (Llm.create_fallback_response query raw)).
Proof.
  unfold Llm.fallback_for, Llm.create_fallback_response.
  eexists. eexists. split; [reflexivity|].
  cbn [Llm.summary Llm.justification].
  split; [reflexivity|]. split; [reflexivity|]. cbn [Llm.jtext].
  destruct (Z.ltb_spec 500 (str_len raw)) as [Hlong|Hshort].
  - split; [|split; [lia|reflexivity]].
    pose proof (str_slice_width raw 0 500 ltac:(lia) ltac:(lia)) as Hw.
    unfold str_len in *. rewrite str_length_append.
    change (String.length "...") with 3%nat. lia.
  - split; [lia|]. split; [reflexivity|lia].
Qed.

Section FallbackFacts.
Variable float_of_int : Z -> option LlmJson.pyfloat.
Variable float_of_str : string -> option LlmJson.pyfloat.
Variable json_loads : string -> LlmJson.loaded.

Local Abbreviation parse_answer :=
  (LlmJson.parse_answer float_of_int float_of_str json_loads).

(** A malformed answer that is not empty is answered by the fallback,
    built from the stripped answer when there is no brace span and from
    the answer itself when the span does not parse. *)
Lemma parse_answer_unparsable (query response_text : string) :
  response_text <> "" ->
  LlmJson.unparsable json_loads response_text ->
  parse_answer query response_text
  = Llm.FallbackResponse LlmJson.dict
      (Llm.create_fallback_response query
         (LlmJson.fallback_text response_text)).
Proof.
  intros Hne Hbad. unfold LlmJson.parse_answer, LlmJson.fallback_text.
  destruct response_text as [|c r]; [congruence|].
  set (response_text := String c r) in *.
  set (text := strip response_text) in *.
  unfold LlmJson.unparsable in Hbad. fold text in Hbad. cbv zeta in Hbad.
  cbv zeta.
  destruct (Z.eqb_spec (find_char "{" text) (-1)) as [Hf|Hf];
    [reflexivity|].
  destruct (Z.eqb_spec (rfind_char "}" text + 1) 0) as [Hr|Hr];
    [reflexivity|].
  cbn [orb]. destruct Hbad as [Hb|[Hb|Hb]]; [lia|lia|].
  unfold LlmJson.json_span in Hb. rewrite Hb. reflexivity.
Qed.

End FallbackFacts.

(** C9, as amended.  For every query and every answer of the LLM
    collaborator that is not empty and is malformed (it holds no span from
    a first opening to a last closing brace, or [json.loads] raises a
    [JSONDecodeError] on that span), [call_gemini] returns the fallback
    response: it carries the query in its summary, and in its justification
    the raw answer (stripped when it has no brace span) cut to its first 500
    characters followed by three dots, at most 503 characters. *)
Theorem call_gemini_fallback
  (float_of_int : Z -> option LlmJson.pyfloat)
  (float_of_str : string -> option LlmJson.pyfloat)
  (json_loads : string -> LlmJson.loaded)
  (key : string) (generate_content : string -> string -> Llm.Generated)
  (query response_text : string) (chunks : list string) :
  key <> "" ->
  generate_content (join Llm.newline2 (Llm.numbered 0 chunks)) query
    = Llm.Text response_text ->
  response_text <> "" ->
  LlmJson.unparsable json_loads response_text ->
  Llm.fallback_for LlmJson.dict query (LlmJson.fallback_text response_text)
    (LlmJson.call_gemini float_of_int float_of_str json_loads (Some key)
       generate_content query chunks).
Proof.
  intros Hkey Hgen Hne Hbad.
  unfold LlmJson.call_gemini. destruct key as [|c k]; [congruence|].
  rewrite Hgen.
  rewrite (parse_answer_unparsable float_of_int float_of_str json_loads
             query response_text Hne Hbad).
  apply create_fallback_response_spec.
Qed.

Lemma call_gemini_fallback_witness :
  Llm.fallback_for LlmJson.dict "is the claim covered?" " {not json} "
    (LlmJson.call_gemini (fun _ => None) (fun _ => None)
       (fun _ => LlmJson.JSONDecodeError) (Some "key")
       (fun _ _ => Llm.Text " {not json} ")
       "is the claim covered?" ["clause one"]).
Proof.
  apply (call_gemini_fallback (fun _ => None) (fun _ => None)
           (fun _ => LlmJson.JSONDecodeError) "key"
           (fun _ _ => Llm.Text " {not json} ")
           "is the claim covered?" " {not json} " ["clause one"]).
  - discriminate.
  - reflexivity.
  - discriminate.
  - right. right. reflexivity.
Defined.

(** C9 as stated fails on the empty answer, which is not JSON: the guard
    for an empty answer returns the error response, without the query. *)
Lemma call_gemini_fallback_counterexample :
  LlmJson.unparsable (fun _ => LlmJson.JSONDecodeError) ""
  /\ LlmJson.call_gemini (fun _ => None) (fun _ => None)
       (fun _ => LlmJson.JSONDecodeError) (Some "key")
       (fun _ _ => Llm.Text "") "is the claim covered?" ["clause one"]
     = Llm.ErrorResponse LlmJson.dict "Empty response from LLM"
  /\ forall raw,
       ~ Llm.fallback_for LlmJson.dict "is the claim covered?" raw
           (LlmJson.call_gemini (fun _ => None) (fun _ => None)
              (fun _ => LlmJson.JSONDecodeError) (Some "key")
              (fun _ _ => Llm.Text "") "is the claim covered?"
              ["clause one"]).
Proof.
  split; [left; reflexivity|]. split; [reflexivity|].
  intros raw (f & j & H & _). discriminate.
Qed.

(** ** The orchestrator *)

Section OrchestratorFacts.
Variable bytes : Type.
Variable pdfplumber_open : bytes -> option (list (option string)).
Variable docx_Document : bytes -> option App.DocxDocument.
Variable decode_utf8 : bytes -> string + string.
Variable encode : list string -> option (list vector).
Variable LlmResponse : Type.
Variable call_gemini : string -> list string -> LlmResponse.

Local Abbreviation extract_text_from_file :=
  (App.extract_text_from_file bytes pdfplumber_open docx_Document
     decode_utf8).
Local Abbreviation process_files :=
  (App.process_files bytes pdfplumber_open docx_Document decode_utf8
     LlmResponse).
Local Abbreviation hackrx_webhook :=
  (App.hackrx_webhook bytes pdfplumber_open docx_Document decode_utf8
     encode LlmResponse call_gemini).

(** The extraction raises only on a text file that does not decode and on
    a file of another type than PDF, DOCX and text. *)
Lemma extract_text_from_file_raises file_content filename e :
  extract_text_from_file file_content filename = inr e <->
  endswith (lower filename) ".pdf" = false
  /\ endswith (lower filename) ".docx" = false
  /\ ((endswith (lower filename) ".txt" = true
       /\ decode_utf8 file_content = inr e)
      \/ (endswith (lower filename) ".txt" = false
          /\ e = ("Unsupported file type: " ++ filename)%string)).
Proof.
  unfold App.extract_text_from_file.
  destruct (endswith (lower filename) ".pdf");
    [split; [discriminate|intros [H _]; discriminate]|].
  destruct (endswith (lower filename) ".docx");
    [split; [discriminate|intros (_ & H & _); discriminate]|].
  destruct (endswith (lower filename) ".txt").
  - split.
    + intros H. repeat split. now left.
    + intros (_ & _ & [[_ H]|[H _]]); [assumption|discriminate].
  - split.
    + intros [= <-]. repeat split. now right.
    + intros (_ & _ & [[H _]|[_ ->]]); [discriminate|reflexivity].
Qed.

(** The text of a PDF or DOCX file whose reader raises is empty. *)
Lemma extract_text_swallowed file_content filename :
  (endswith (lower filename) ".pdf" = true
   /\ pdfplumber_open file_content = None)
  \/ (endswith (lower filename) ".pdf" = false
      /\ endswith (lower filename) ".docx" = true
      /\ docx_Document file_content = None) ->
  extract_text_from_file file_content filename = inl ""%string.
Proof.
  unfold App.extract_text_from_file, App.extract_text_from_pdf,
    App.extract_text_from_docx.
  intros [[-> ->]|(-> & -> & ->)]; reflexivity.
Qed.

(** One iteration of the loop on a document without text: the document is
    skipped. *)
Lemma process_files_skip filename file_content rest all_chunks calls text :
  extract_text_from_file file_content filename = inl text ->
  strip text = ""%string ->
  process_files ((filename, file_content) :: rest) all_chunks calls
  = process_files rest all_chunks (calls ++ [filename]).
Proof. intros He Hs. cbn [App.process_files]. now rewrite He, Hs. Qed.

(** One iteration of the loop on a document whose extraction raises. *)
Lemma process_files_abort filename file_content rest all_chunks calls e :
  extract_text_from_file file_content filename = inr e ->
  process_files ((filename, file_content) :: rest) all_chunks calls
  = Some (App.Aborted
            (App.ErrorJson
               ("Failed to process " ++ filename ++ ": " ++ e)%string, 500),
          calls ++ [filename]).
Proof. intros He. cbn [App.process_files]. now rewrite He. Qed.

(** The documents whose extraction does not raise are passed in order,
    each extracted once. *)
Lemma process_files_prefix before : forall rest all_chunks calls,
  (forall n c, In (n, c) before ->
               exists t, extract_text_from_file c n = inl t) ->
  exists all_chunks',
    process_files (before ++ rest) all_chunks calls
    = process_files rest all_chunks' (calls ++ map fst before).
Proof.
  induction before as [|[n c] before IH]; intros rest all_chunks calls Hok.
  - exists all_chunks. cbn. now rewrite app_nil_r.
  - destruct (Hok n c (or_introl eq_refl)) as [t Ht].
    assert (Hok' : forall n c, In (n, c) before ->
                     exists t, extract_text_from_file c n = inl t)
      by (intros; apply Hok; now right).
    cbn [app App.process_files map fst]. rewrite Ht.
    destruct (strip t) eqn:Hs.
    + destruct (IH rest all_chunks (calls ++ [n]) Hok') as [acc Hacc].
      exists acc. rewrite Hacc, <- app_assoc. reflexivity.
    + destruct (chunk_text_total t n default_chunk_size default_overlap
                  default_min_chunk_size) as [chunks Hchunks];
        [unfold default_chunk_size, default_overlap; lia|].
      rewrite Hchunks.
      destruct (IH rest (all_chunks ++ chunks) (calls ++ [n]) Hok')
        as [acc Hacc].
      exists acc. rewrite Hacc, <- app_assoc. reflexivity.
Qed.

(** The responses after the loop never name a document. *)
Lemma answer_names_no_document query files all_chunks filename :
  ~ App.names_document filename
      (App.answer bytes encode LlmResponse call_gemini query files
         all_chunks).
Proof.
  intros [e He]. unfold App.answer in He.
  destruct all_chunks; [discriminate|].
  destruct (size _ =? 0); [discriminate|].
  destruct (create_faiss_index _); [|discriminate].
  destruct (retrieve_top_k_chunks _ _ _ _); discriminate.
Qed.

End OrchestratorFacts.

(** C8, as amended.  When the extraction of a document raises (a text file
    that does not decode, a file type that is not supported), the
    orchestrator aborts the whole request with the error 500 that names
    this document: no result for the documents before it is returned, and
    the extraction was called once on each document up to it and on none
    after it (no retry).  A failure of the PDF or DOCX reader is not
    raised: the text of the document is empty and the loop goes on to the
    next document. *)
Theorem hackrx_webhook_aborts_on_raise
  (bytes : Type)
  (pdfplumber_open : bytes -> option (list (option string)))
  (docx_Document : bytes -> option App.DocxDocument)
  (decode_utf8 : bytes -> string + string)
  (encode : list string -> option (list vector))
  (LlmResponse : Type) (call_gemini : string -> list string -> LlmResponse)
  (query : string) (before after : list (string * bytes))
  (filename : string) (file_content : bytes) (e : string) :
  let extract :=
    App.extract_text_from_file bytes pdfplumber_open docx_Document
      decode_utf8 in
  let process :=
    App.process_files bytes pdfplumber_open docx_Document decode_utf8
      LlmResponse in
  query <> ""%string ->
  (forall n c, In (n, c) before -> exists t, extract c n = inl t) ->
  extract file_content filename = inr e ->
  App.hackrx_webhook bytes pdfplumber_open docx_Document decode_utf8 encode
    LlmResponse call_gemini (Some query)
    (before ++ (filename, file_content) :: after)
  = Some ((App.ErrorJson
             ("Failed to process " ++ filename ++ ": " ++ e)%string, 500),
          map fst before ++ [filename])
  /\ (forall n c rest all_chunks calls,
        (endswith (lower n) ".pdf" = true /\ pdfplumber_open c = None)
        \/ (endswith (lower n) ".pdf" = false
            /\ endswith (lower n) ".docx" = true
            /\ docx_Document c = None) ->
        process ((n, c) :: rest) all_chunks calls
        = process rest all_chunks (calls ++ [n]))
  /\ (forall n c e',
        extract c n = inr e' <->
        endswith (lower n) ".pdf" = false
        /\ endswith (lower n) ".docx" = false
        /\ ((endswith (lower n) ".txt" = true /\ decode_utf8 c = inr e')
            \/ (endswith (lower n) ".txt" = false
                /\ e' = ("Unsupported file type: " ++ n)%string))).
Proof.
  intros extract process Hq Hbefore Hraise.
  split; [|split; [|intros; apply extract_text_from_file_raises]].
  - unfold App.hackrx_webhook. destruct query as [|q0 q]; [congruence|].
    destruct (before ++ (filename, file_content) :: after) eqn:Hfiles.
    { destruct before; discriminate. }
    rewrite <- Hfiles.
    destruct (process_files_prefix bytes pdfplumber_open docx_Document
                decode_utf8 LlmResponse before
                ((filename, file_content) :: after) [] [] Hbefore)
      as [acc Hacc].
    rewrite Hacc.
    rewrite (process_files_abort _ _ _ _ _ _ _ _ _ _ e Hraise).
    reflexivity.
  - intros n c rest all_chunks calls Hfail.
    apply (process_files_skip _ _ _ _ _ _ _ _ _ _ ""%string);
      [now apply extract_text_swallowed|reflexivity].
Qed.

Lemma hackrx_webhook_aborts_on_raise_witness :
  App.hackrx_webhook string (fun _ => None) (fun _ => None)
    (fun b => inl b) (fun texts => Some (map (fun _ => [1%R]) texts))
    unit (fun _ _ => tt) (Some "is the claim covered?"%string)
    [("notes.txt"%string, "   "%string);
     ("archive.zip"%string, "PK"%string);
     ("company_policy.txt"%string, App.test_document)]
  = Some ((App.ErrorJson
             "Failed to process archive.zip: Unsupported file type: archive.zip",
           500),
          ["notes.txt"%string; "archive.zip"%string]).
Proof.
  apply (hackrx_webhook_aborts_on_raise string (fun _ => None)
           (fun _ => None) (fun b => inl b)
           (fun texts => Some (map (fun _ => [1%R]) texts)) unit
           (fun _ _ => tt) "is the claim covered?"%string
           [("notes.txt"%string, "   "%string)]
           [("company_policy.txt"%string, App.test_document)]
           "archive.zip"%string "PK"%string
           "Unsupported file type: archive.zip"%string).
  - discriminate.
  - intros n c [[= <- <-]|[]]. eexists. reflexivity.
  - reflexivity.
Defined.

(** C8 as stated fails on a PDF file that the reader cannot open: the
    extractor catches the failure and returns the empty text, the loop
    skips the document, and the request goes on with the chunks of the
    other document; its response does not name the unreadable one. *)
Lemma hackrx_webhook_aborts_counterexample :
  let files := [("scan.pdf"%string, "not a pdf"%string);
                ("company_policy.txt"%string, App.test_document)] in
  let encode := fun texts : list string =>
                  Some (map (fun _ => [1%R]) texts) in
  App.extraction_fails string (fun _ => None) (fun _ => None)
    (fun b => inl b) "not a pdf"%string "scan.pdf"%string
  /\ App.process_files string (fun _ => None) (fun _ => None)
       (fun b => inl b) unit files [] []
     = Some (App.Collected
               [mkChunk (normalize App.test_document) "company_policy.txt"
                  0 0 96 96],
             ["scan.pdf"%string; "company_policy.txt"%string])
  /\ exists response metadata calls,
       App.hackrx_webhook string (fun _ => None) (fun _ => None)
         (fun b => inl b) encode unit (fun _ _ => tt)
         (Some "is the claim covered?"%string) files
       = Some (response, calls)
       /\ response = (App.AcceptedJson tt metadata, 200)
       /\ ~ App.names_document "scan.pdf"%string response.
Proof.
  intros files encode.
  assert (Hp : App.process_files string (fun _ => None) (fun _ => None)
                 (fun b => inl b) unit files [] []
               = Some (App.Collected
                         [mkChunk (normalize App.test_document)
                            "company_policy.txt" 0 0 96 96],
                       ["scan.pdf"%string; "company_policy.txt"%string]))
    by (vm_compute; reflexivity).
  split; [left; split; reflexivity|]. split; [exact Hp|].
  unfold App.hackrx_webhook. cbv iota beta. unfold files at 1.
  change (App.process_files string (fun _ => None) (fun _ => None)
            (fun b => inl b) unit
            [("scan.pdf"%string, "not a pdf"%string);
             ("company_policy.txt"%string, App.test_document)] [] [])
    with (App.process_files string (fun _ => None) (fun _ => None)
            (fun b => inl b) unit files [] []).
  rewrite Hp.
  set (all_chunks := [mkChunk (normalize App.test_document)
                        "company_policy.txt" 0 0 96 96]).
  assert (Hanswer : exists metadata,
            App.answer string encode unit (fun _ _ => tt)
              "is the claim covered?" files all_chunks
            = (App.AcceptedJson tt metadata, 200)).
  { unfold App.answer, all_chunks.
    change (App.generate_embeddings encode
              [mkChunk (normalize App.test_document) "company_policy.txt"
                 0 0 96 96]) with [[1%R]].
    change (size [[1%R]] =? 0) with false. cbv iota.
    rewrite create_faiss_index_some by (vm_compute; discriminate).
    change (App.embed_query encode "is the claim covered?") with [1%R].
    set (index := mkIndex (List.length (hd [] (normalize_L2 [[1%R]])))
                    (normalize_L2 [[1%R]])).
    set (chunks := [mkChunk (normalize App.test_document)
                      "company_policy.txt" 0 0 96 96]).
    destruct (search_hits_valid index [1%R] chunks 5)
      as (hits & Hs & Hl & Hin);
      [reflexivity|reflexivity|cbn; now rewrite renorm_L2_length|lia|].
    rewrite (retrieve_top_k_chunks_eq index [1%R] chunks 5 hits)
      by (assumption || discriminate).
    destruct (collect_valid chunks hits Hin 0) as [Hcl _].
    destruct (collect chunks 0 hits); [|eexists; reflexivity].
    destruct hits; [discriminate Hl|discriminate Hcl]. }
  destruct Hanswer as [metadata Hanswer].
  eexists. exists metadata. eexists. split; [reflexivity|].
  split; [exact Hanswer|]. apply answer_names_no_document.
Qed.

(* ================================================================== *)
(** * Further properties of the code *)

(** ** The chunker: bounds, overlap and coverage *)

(** Every kept window lies inside the document, has between
    [min_chunk_size] and [chunk_size] words, and carries the name of the
    source. *)
Lemma run_bounds (words : list string) (src : string) (C O M : Z)
  start id res :
  0 <= C -> 0 < C - O ->
  loop_run words src C O M start id res -> 0 <= start ->
  Forall (fun c => 0 <= start_word c /\ start_word c <= end_word c
                   /\ end_word c <= len words
                   /\ M <= word_count c /\ word_count c <= C
                   /\ source c = src) res.
Proof.
  intros HC Hs.
  assert (Hw : forall k s, 0 <= s -> s < len words ->
                 M <= word_count (window words src C k s) ->
                 0 <= start_word (window words src C k s)
                 /\ start_word (window words src C k s)
                    <= end_word (window words src C k s)
                 /\ end_word (window words src C k s) <= len words
                 /\ M <= word_count (window words src C k s)
                 /\ word_count (window words src C k s) <= C
                 /\ source (window words src C k s) = src).
  { intros k s H0 Hlt Hk.
    rewrite (window_word_count words src C k s HC H0 Hlt) in *.
    cbn in *. repeat split; lia. }
  induction 1 as [s k Hx | s k Hlt Hk Hb | s k Hlt Hk Hb
                 | s k rest Hlt Hk Hb Hrest IH | s k rest Hlt Hk Hb Hrest IH];
    intros H0.
  - constructor.
  - constructor; [now apply Hw|constructor].
  - constructor.
  - constructor; [now apply Hw|apply IH; lia].
  - apply IH; lia.
Qed.

(** Every kept window but the last one is a full window. *)
Lemma run_full_windows (words : list string) (src : string) (C O M : Z)
  start id res :
  0 <= C -> 0 < C - O ->
  loop_run words src C O M start id res -> 0 <= start ->
  forall i a, nth_error res i = Some a -> (S i < List.length res)%nat ->
    end_word a = start_word a + C /\ word_count a = C.
Proof.
  intros HC Hs.
  induction 1 as [s k Hx | s k Hlt Hk Hb | s k Hlt Hk Hb
                 | s k rest Hlt Hk Hb Hrest IH | s k rest Hlt Hk Hb Hrest IH];
    intros H0 i a Hi Hnext.
  - destruct i; discriminate.
  - cbn in Hnext. lia.
  - destruct i; discriminate.
  - destruct i as [|i].
    + injection Hi as <-.
      rewrite (window_word_count words src C k s HC H0 Hlt).
      cbn in *. lia.
    + cbn in Hi, Hnext. assert (H0' : 0 <= s + (C - O)) by lia.
      apply (IH H0' i a Hi). lia.
  - assert (H0' : 0 <= s + (C - O)) by lia. apply (IH H0' i a Hi Hnext).
Qed.

(** With [min_chunk_size <= overlap] a dropped last window lies inside the
    window before it: from a kept window on, every word is covered. *)
Lemma run_covers_rest (words : list string) (src : string) (C O M : Z)
  start id res :
  0 <= O -> O < C -> M <= O ->
  loop_run words src C O M start id res -> 0 <= start -> start < len words ->
  forall p, start <= p < len words -> covered res p \/ p < start + O.
Proof.
  intros HO HOC HM.
  induction 1 as [s k Hx | s k Hlt Hk Hb | s k Hlt Hk Hb
                 | s k rest Hlt Hk Hb Hrest IH | s k rest Hlt Hk Hb Hrest IH];
    intros H0 HltW p Hp.
  - lia.
  - left. exists (window words src C k s). split; [now left|]. cbn in *. lia.
  - right. rewrite window_word_count in Hk by lia. cbn in *. lia.
  - left. cbn in Hb.
    destruct (Z.lt_ge_cases p (s + (C - O))) as [Hin|Hout].
    + exists (window words src C k s). split; [now left|]. cbn. lia.
    + assert (H0' : 0 <= s + (C - O)) by lia.
      assert (Hlt' : s + (C - O) < len words) by lia.
      assert (Hp' : s + (C - O) <= p < len words) by lia.
      destruct (IH H0' Hlt' p Hp') as [(c & Hc & Hr)|Hprev].
      * exists c. split; [now right|assumption].
      * exists (window words src C k s). split; [now left|]. cbn. lia.
  - rewrite window_word_count in Hk by lia. cbn in Hk, Hb. lia.
Qed.

(** X1.  For a [chunk_size] that is not negative, every chunk returned by
    [chunk_text] lies inside the document ([0 <= start_word <= end_word <=
    W]), has at least [min_chunk_size] and at most [chunk_size] words, and
    carries [source_file] as its source. *)
Theorem chunk_text_chunk_bounds (text src : string) (C O M : Z)
  (chunks : list Chunk) :
  0 <= C -> chunk_text text src C O M = Some chunks ->
  Forall (fun c => 0 <= start_word c /\ start_word c <= end_word c
                   /\ end_word c <= len (words_of text)
                   /\ M <= word_count c /\ word_count c <= C
                   /\ source c = src) chunks.
Proof.
  intros HC Hrun. destruct (strip text) eqn:Hb.
  - unfold chunk_text in Hrun.
    rewrite chunk_text_fuel_blank in Hrun by assumption.
    injection Hrun as <-. constructor.
  - assert (HW : 0 < len (words_of text))
      by (apply words_of_nonblank; congruence).
    destruct (Z.le_gt_cases (len (words_of text)) C) as [Hle|Hgt].
    + unfold chunk_text in Hrun.
      rewrite chunk_text_fuel_short in Hrun by assumption.
      destruct (Z.leb_spec M (len (words_of text))); injection Hrun as <-.
      * constructor; [cbn; repeat split; lia|constructor].
      * constructor.
    + destruct (Z.lt_ge_cases 0 (C - O)) as [Hs|Hs].
      * apply chunk_text_long_run in Hrun; [|lia..].
        apply (run_bounds _ _ _ _ _ _ _ _ HC Hs Hrun (Z.le_refl 0)).
      * rewrite chunk_text_diverges in Hrun by lia. discriminate.
Qed.

Lemma chunk_text_chunk_bounds_witness :
  Forall (fun c => 0 <= start_word c /\ start_word c <= end_word c
                   /\ end_word c <= len (words_of "a b c d e f g")
                   /\ 2 <= word_count c /\ word_count c <= 3
                   /\ source c = "policy.txt")
    [mkChunk "a b c" "policy.txt" 0 0 3 3;
     mkChunk "c d e" "policy.txt" 1 2 5 3;
     mkChunk "e f g" "policy.txt" 2 4 7 3].
Proof.
  apply (chunk_text_chunk_bounds "a b c d e f g" "policy.txt" 3 1 2);
    [lia|reflexivity].
Defined.

(** X3.  With [0 <= overlap < chunk_size], two consecutive chunks returned
    by [chunk_text] share exactly [overlap] words, and the first of them is
    a full window of [chunk_size] words. *)
Theorem chunk_text_overlap (text src : string) (C O M : Z)
  (chunks : list Chunk) (i : nat) (a b : Chunk) :
  0 <= O -> O < C -> chunk_text text src C O M = Some chunks ->
  nth_error chunks i = Some a -> nth_error chunks (S i) = Some b ->
  end_word a - start_word b = O
  /\ word_count a = C /\ end_word a = start_word a + C.
Proof.
  intros HO HOC Hrun Ha Hb.
  assert (Hlen : (S i < List.length chunks)%nat)
    by (apply nth_error_Some; congruence).
  destruct (strip text) eqn:Hblank.
  { unfold chunk_text in Hrun.
    rewrite chunk_text_fuel_blank in Hrun by assumption.
    injection Hrun as <-. cbn in Hlen. lia. }
  assert (HW : 0 < len (words_of text))
    by (apply words_of_nonblank; congruence).
  destruct (Z.le_gt_cases (len (words_of text)) C) as [Hle|Hgt].
  { unfold chunk_text in Hrun.
    rewrite chunk_text_fuel_short in Hrun by assumption.
    destruct (M <=? len (words_of text)); injection Hrun as <-;
      cbn in Hlen; lia. }
  apply chunk_text_long_run in Hrun; [|lia..].
  assert (HC0 : 0 <= C) by lia. assert (Hs : 0 < C - O) by lia.
  destruct (run_full_windows _ _ _ _ _ _ _ _ HC0 Hs Hrun
              (Z.le_refl 0) i a Ha Hlen) as [Hend Hwc].
  pose proof (run_starts _ _ _ _ _ _ HO HOC HW Hrun _ _ Ha) as Hsa.
  pose proof (run_starts _ _ _ _ _ _ HO HOC HW Hrun _ _ Hb) as Hsb.
  repeat split; try assumption. lia.
Qed.

Lemma chunk_text_overlap_witness :
  end_word (mkChunk "a b c" "policy.txt" 0 0 3 3)
  - start_word (mkChunk "c d e" "policy.txt" 1 2 5 3) = 1.
Proof.
  apply (chunk_text_overlap "a b c d e f g" "policy.txt" 3 1 2
           [mkChunk "a b c" "policy.txt" 0 0 3 3;
            mkChunk "c d e" "policy.txt" 1 2 5 3;
            mkChunk "e f g" "policy.txt" 2 4 7 3] 0);
    [lia|lia|reflexivity|reflexivity|reflexivity].
Defined.

(** X4.  With [0 <= overlap < chunk_size] and [min_chunk_size <= overlap]
    (as with the defaults 300, 50, 50), [chunk_text] loses no text of a
    document of at least [min_chunk_size] words: every word lies in the
    range of a returned chunk.  A last window that is dropped for being too
    short is contained in the chunk before it. *)
Theorem chunk_text_covers_all (text src : string) (C O M : Z) :
  0 <= O -> O < C -> M <= O -> M <= len (words_of text) ->
  exists chunks,
    chunk_text text src C O M = Some chunks
    /\ forall p, 0 <= p < len (words_of text) -> covered chunks p.
Proof.
  intros HO HOC HM HMW.
  destruct (chunk_text_total text src C O M) as [res Hres]; [lia|].
  exists res. split; [assumption|]. intros p Hp.
  assert (HW : 0 < len (words_of text)) by lia.
  destruct (Z.le_gt_cases (len (words_of text)) C) as [Hle|Hgt].
  - unfold chunk_text in Hres.
    rewrite chunk_text_fuel_short in Hres by assumption.
    destruct (Z.leb_spec M (len (words_of text))); [|lia].
    injection Hres as <-. eexists. split; [now left|]. cbn. lia.
  - apply chunk_text_long_run in Hres; [|lia..].
    inversion Hres as [s k Hx | s k Hlt Hk Hb | s k Hlt Hk Hb
                      | s k rest Hlt Hk Hb Hrest | s k rest Hlt Hk Hb Hrest];
      subst; try (cbn in Hb); try lia.
    + destruct (Z.lt_ge_cases p (C - O)) as [Hin|Hout].
      * eexists. split; [now left|]. cbn. lia.
      * assert (H0' : 0 <= 0 + (C - O)) by lia.
        assert (Hlt' : 0 + (C - O) < len (words_of text)) by lia.
        assert (Hp' : 0 + (C - O) <= p < len (words_of text)) by lia.
        destruct (run_covers_rest _ _ _ _ _ _ _ _ HO HOC HM Hrest
                    H0' Hlt' p Hp')
          as [(c & Hc & Hr)|Hprev].
        -- exists c. split; [now right|assumption].
        -- eexists. split; [now left|]. cbn. lia.
    + rewrite window_word_count in Hk by lia. cbn in Hk. lia.
Qed.

Lemma chunk_text_covers_all_witness :
  exists chunks,
    chunk_text App.test_document "company_policy.txt" default_chunk_size
      default_overlap default_min_chunk_size = Some chunks
    /\ forall p, 0 <= p < len (words_of App.test_document) ->
                 covered chunks p.
Proof.
  apply chunk_text_covers_all;
    [unfold default_overlap; lia
    |unfold default_overlap, default_chunk_size; lia
    |unfold default_overlap, default_min_chunk_size; lia
    |vm_compute; discriminate].
Defined.

(** X5.  With [overlap >= chunk_size], [chunk_text] never returns on a text
    of more than [chunk_size] words: the start of the window does not
    advance, and no bound on the iterations is enough. *)
Theorem chunk_text_never_returns (text src : string) (C O M : Z) :
  C <= O -> 0 < len (words_of text) -> C < len (words_of text) ->
  chunk_text text src C O M = None
  /\ forall fuel, chunk_text_fuel fuel text src C O M = None.
Proof.
  intros HO HW HC. split.
  - apply chunk_text_diverges; lia.
  - intros fuel. rewrite chunk_text_fuel_long by lia.
    apply loop_diverges; lia.
Qed.

Lemma chunk_text_never_returns_witness :
  chunk_text "a b c" "policy.txt" 2 2 1 = None
  /\ forall fuel, chunk_text_fuel fuel "a b c" "policy.txt" 2 2 1 = None.
Proof.
  apply chunk_text_never_returns; [lia|reflexivity|reflexivity].
Defined.

(** ** The chunker: the text of a chunk *)

Lemma str_app_assoc (a b c : string) :
  ((a ++ b) ++ c)%string = (a ++ (b ++ c))%string.
Proof. induction a as [|x a IH]; cbn; [reflexivity|now rewrite IH]. Qed.

Lemma str_app_empty_r (a : string) : (a ++ "")%string = a.
Proof. induction a as [|x a IH]; cbn; [reflexivity|now rewrite IH]. Qed.

Lemma no_space_app (a b : string) :
  no_space (a ++ b)%string = no_space a && no_space b.
Proof.
  induction a as [|x a IH]; cbn; [reflexivity|].
  rewrite IH. now rewrite andb_assoc.
Qed.

(** Reading a word extends the word being read. *)
Lemma split_from_app_word (w : string) : forall cur s,
  no_space w = true ->
  split_from cur (w ++ s)%string = split_from (cur ++ w)%string s.
Proof.
  induction w as [|c w IH]; intros cur s Hw; cbn.
  - now rewrite str_app_empty_r.
  - cbn in Hw. apply andb_true_iff in Hw as [Hc Hw].
    apply negb_true_iff in Hc. rewrite Hc, (IH _ _ Hw), str_app_assoc.
    reflexivity.
Qed.

(** Splitting the words joined by single spaces gives the words back. *)
Lemma split_join (ws : list string) :
  Forall is_word ws -> split (join " " ws) = ws.
Proof.
  unfold split. induction 1 as [|w ws [Hne Hw] Hws IH]; [reflexivity|].
  destruct ws as [|w2 ws].
  - cbn [join]. rewrite <- (str_app_empty_r w) at 1.
    rewrite split_from_app_word by assumption. cbn.
    destruct w; [congruence|reflexivity].
  - change (join " " (w :: w2 :: ws))
      with (w ++ String " " (join " " (w2 :: ws)))%string.
    rewrite split_from_app_word by assumption.
    cbn [append split_from]. change (isspace " ") with true. cbv iota.
    rewrite IH. destruct w; [congruence|reflexivity].
Qed.

(** [split] returns words. *)
Lemma split_from_words (s : string) : forall cur,
  no_space cur = true -> Forall is_word (split_from cur s).
Proof.
  induction s as [|c r IH]; intros cur Hcur; cbn.
  - destruct cur; [constructor|]. constructor; [|constructor].
    split; [discriminate|assumption].
  - destruct (isspace c) eqn:Hc.
    + destruct cur; [now apply IH|].
      constructor; [split; [discriminate|assumption]|now apply IH].
    + apply IH. rewrite no_space_app, Hcur. cbn. now rewrite Hc.
Qed.

Lemma words_of_words (text : string) : Forall is_word (words_of text).
Proof. apply split_from_words. reflexivity. Qed.

Lemma Forall_slice {A : Type} (P : A -> Prop) (l : list A) (a b : Z) :
  Forall P l -> Forall P (slice l a b).
Proof.
  intros H. rewrite Forall_forall in *. intros x Hx. apply H.
  unfold slice in Hx. eapply in_skipn_in, in_firstn_in, Hx.
Qed.

Lemma slice_all {A : Type} (l : list A) : slice l 0 (len l) = l.
Proof.
  unfold slice, slice_bound, len.
  destruct (Z.ltb_spec 0 0); [lia|].
  destruct (Z.ltb_spec (Z.of_nat (List.length l)) 0); [lia|].
  replace (Z.min 0 (Z.of_nat (List.length l))) with 0 by lia.
  rewrite Z.min_id, Z.sub_0_r, Nat2Z.id. cbn [Z.to_nat skipn].
  apply firstn_all.
Qed.

(** The text of a kept window splits into the words of its range. *)
Lemma run_text (words : list string) (src : string) (C O M : Z)
  start id res :
  Forall is_word words ->
  loop_run words src C O M start id res ->
  Forall (fun c => split (text c) = slice words (start_word c) (end_word c)
                   /\ len (split (text c)) = word_count c) res.
Proof.
  intros Hwords.
  assert (Hw : forall k s,
            split (text (window words src C k s))
            = slice words (start_word (window words src C k s))
                (end_word (window words src C k s))
            /\ len (split (text (window words src C k s)))
               = word_count (window words src C k s)).
  { intros k s. cbn. rewrite split_join by now apply Forall_slice.
    split; reflexivity. }
  induction 1 as [s k Hx | s k Hlt Hk Hb | s k Hlt Hk Hb
                 | s k rest Hlt Hk Hb Hrest IH | s k rest Hlt Hk Hb Hrest IH].
  - constructor.
  - constructor; [apply Hw|constructor].
  - constructor.
  - constructor; [apply Hw|exact IH].
  - exact IH.
Qed.

(** X2.  For all parameters, the text of every chunk returned by
    [chunk_text], split on whitespace again, is exactly the slice
    [words[start_word:end_word]] of the document's words, and it has
    [word_count] words. *)
Theorem chunk_text_text_round_trip (text0 src : string) (C O M : Z)
  (chunks : list Chunk) :
  chunk_text text0 src C O M = Some chunks ->
  Forall (fun c => split (text c)
                   = slice (words_of text0) (start_word c) (end_word c)
                   /\ len (split (text c)) = word_count c) chunks.
Proof.
  intros Hrun. destruct (strip text0) eqn:Hb.
  - unfold chunk_text in Hrun.
    rewrite chunk_text_fuel_blank in Hrun by assumption.
    injection Hrun as <-. constructor.
  - assert (HW : 0 < len (words_of text0))
      by (apply words_of_nonblank; congruence).
    destruct (Z.le_gt_cases (len (words_of text0)) C) as [Hle|Hgt].
    + unfold chunk_text in Hrun.
      rewrite chunk_text_fuel_short in Hrun by assumption.
      destruct (M <=? len (words_of text0)); injection Hrun as <-;
        constructor; [|constructor].
      cbn. rewrite slice_all. split; reflexivity.
    + apply chunk_text_long_run in Hrun; [|lia..].
      eapply run_text; [apply words_of_words|eassumption].
Qed.

Lemma chunk_text_text_round_trip_witness :
  Forall (fun c => split (text c)
                   = slice (words_of "a  b c d e f g") (start_word c)
                       (end_word c)
                   /\ len (split (text c)) = word_count c)
    [mkChunk "a b c" "policy.txt" 0 0 3 3;
     mkChunk "c d e" "policy.txt" 1 2 5 3;
     mkChunk "e f g" "policy.txt" 2 4 7 3].
Proof.
  apply (chunk_text_text_round_trip "a  b c d e f g" "policy.txt" 3 1 2).
  reflexivity.
Defined.

(** ** Retrieval on arbitrary inputs *)

(** What a successful search step returned, without any assumption on the
    index or the chunks. *)
Lemma search_hits_inv (q : vector) (index : IndexFlatIP)
  (chunks : list Chunk) (k : Z) (hits : list hit) :
  search_hits q index chunks k = Some hits ->
  let num_search := Z.min k (Z.min (len chunks) (ntotal index)) in
  0 < num_search
  /\ hits = firstn (Z.to_nat num_search)
              (sort_hits (inner_products (renorm_L2 q) (xb index))).
Proof.
  unfold search_hits, search. intros H.
  destruct (_ =? _)%nat; [|discriminate]. cbn [andb] in H.
  destruct (Z.ltb_spec 0 (Z.min k (Z.min (len chunks) (ntotal index))));
    [|discriminate].
  injection H as <-. split; [assumption|reflexivity].
Qed.

Lemma search_hits_facts (q : vector) (index : IndexFlatIP)
  (chunks : list Chunk) (k : Z) (hits : list hit) :
  search_hits q index chunks k = Some hits ->
  len hits <= Z.min k (Z.min (len chunks) (ntotal index))
  /\ StronglySorted ranks_first hits
  /\ forall p s, In (p, s) hits ->
       0 <= p < ntotal index
       /\ exists v, In v (xb index) /\ s = dot (renorm_L2 q) v.
Proof.
  intros H. destruct (search_hits_inv _ _ _ _ _ H) as [Hpos ->].
  split; [|split].
  - unfold len. rewrite length_firstn. lia.
  - apply sorted_split, sort_hits_sorted.
  - intros p s Hin. apply in_firstn_in in Hin.
    apply (Permutation_in _ (sort_hits_perm _)) in Hin.
    apply in_inner_products in Hin as (i & v & -> & Hi & ->).
    assert (Hlt : (i < List.length (xb index))%nat)
      by (apply nth_error_Some; congruence).
    split; [unfold ntotal, len; lia|].
    exists v. split; [eapply nth_error_In; eassumption|reflexivity].
Qed.

(** Every element the loop of [retrieve_top_k_chunks] appends comes from a
    hit at a valid position; its rank is the place of that hit. *)
Lemma collect_origin (chunks : list Chunk) (hits : list hit) : forall r,
  Forall (fun rc =>
            exists j p,
              nth_error hits j = Some (p, similarity_score rc)
              /\ 0 <= p < len chunks
              /\ nth_error chunks (Z.to_nat p) = Some (chunk rc)
              /\ rank rc = r + Z.of_nat j + 1)
    (collect chunks r hits).
Proof.
  induction hits as [|[p0 s0] hits IH]; intros r; [constructor|].
  assert (Htail : Forall (fun rc =>
            exists j p,
              nth_error ((p0, s0) :: hits) j = Some (p, similarity_score rc)
              /\ 0 <= p < len chunks
              /\ nth_error chunks (Z.to_nat p) = Some (chunk rc)
              /\ rank rc = r + Z.of_nat j + 1)
            (collect chunks (r + 1) hits)).
  { eapply Forall_impl; [|apply (IH (r + 1))]. cbn beta.
    intros rc (j & p & Hj & Hp & Hc & Hr). exists (S j), p.
    repeat split; try assumption; lia. }
  cbn [collect].
  destruct (Z.leb_spec 0 p0); [|exact Htail].
  destruct (Z.ltb_spec p0 (len chunks)); [|exact Htail]. cbn [andb].
  destruct (nth_error chunks (Z.to_nat p0)) as [c0|] eqn:Hc0; [|exact Htail].
  constructor; [|exact Htail].
  exists 0%nat, p0. cbn. repeat split; try assumption; lia.
Qed.

Lemma collect_length (chunks : list Chunk) (hits : list hit) : forall r,
  (List.length (collect chunks r hits) <= List.length hits)%nat.
Proof.
  induction hits as [|[p0 s0] hits IH]; intros r; [cbn; lia|].
  cbn [collect]. specialize (IH (r + 1)).
  destruct (_ && _); [destruct (nth_error _ _)|]; cbn [List.length]; lia.
Qed.

Lemma collect_ranks_sorted (chunks : list Chunk) (hits : list hit) : forall r,
  StronglySorted (fun a b => rank a < rank b) (collect chunks r hits).
Proof.
  induction hits as [|[p0 s0] hits IH]; intros r; cbn [collect];
    [constructor|].
  destruct (_ && _); [destruct (nth_error _ _)|]; try apply IH.
  constructor; [apply IH|].
  eapply Forall_impl; [|apply (collect_origin chunks hits (r + 1))].
  cbn. intros rc (j & p & _ & _ & _ & Hr). lia.
Qed.

Lemma collect_scores_sorted (chunks : list Chunk) (hits : list hit) :
  StronglySorted ranks_first hits ->
  forall r,
    StronglySorted (fun a b => (similarity_score b <= similarity_score a)%R)
      (collect chunks r hits).
Proof.
  induction 1 as [|[p0 s0] hits Hs IH Hall]; intros r; cbn [collect];
    [constructor|].
  destruct (_ && _); [destruct (nth_error _ _)|]; try apply IH.
  constructor; [apply IH|].
  eapply Forall_impl; [|apply (collect_origin chunks hits (r + 1))].
  cbn. intros rc (j & p & Hj & _).
  apply nth_error_In in Hj. rewrite Forall_forall in Hall.
  specialize (Hall _ Hj). unfold ranks_first in Hall. cbn in Hall.
  destruct Hall as [Hlt|[Heq _]]; lra.
Qed.

(** X6.  For every query, index, chunk list and [k], also when index and
    chunks are not aligned: [retrieve_top_k_chunks] returns at most
    [min(k, len(chunks))] results (none when [k <= 0] or there is no chunk),
    each a chunk of the given list, with ranks that increase strictly and
    lie between 1 and [k], and with similarity scores that never increase
    along the result. *)
Theorem retrieve_top_k_chunks_safe (q : vector) (index : option IndexFlatIP)
  (chunks : list Chunk) (k : Z) :
  let top_chunks := retrieve_top_k_chunks q index chunks k in
  len top_chunks <= Z.max 0 (Z.min k (len chunks))
  /\ Forall (fun rc => In (chunk rc) chunks /\ 1 <= rank rc <= k) top_chunks
  /\ StronglySorted (fun a b => rank a < rank b) top_chunks
  /\ StronglySorted
       (fun a b => (similarity_score b <= similarity_score a)%R) top_chunks.
Proof.
  intros top_chunks. unfold top_chunks, retrieve_top_k_chunks.
  assert (Hnil : len (@nil RankedChunk) <= Z.max 0 (Z.min k (len chunks))
                 /\ Forall (fun rc => In (chunk rc) chunks
                                      /\ 1 <= rank rc <= k) []
                 /\ StronglySorted (fun a b => rank a < rank b) []
                 /\ StronglySorted
                      (fun a b : RankedChunk =>
                         (similarity_score b <= similarity_score a)%R) []).
  { repeat split; try constructor. unfold len; cbn; lia. }
  destruct index as [index|]; [|exact Hnil].
  destruct (len chunks =? 0); [exact Hnil|].
  destruct (search_hits q index chunks k) as [hits|] eqn:Hs; [|exact Hnil].
  destruct (search_hits_facts _ _ _ _ _ Hs) as (Hlen & Hsorted & _).
  pose proof (collect_length chunks hits 0) as Hcl.
  split; [|split; [|split]].
  - unfold len in *. lia.
  - eapply Forall_impl; [|apply (collect_origin chunks hits 0)]. cbn beta.
    intros rc (j & p & Hj & Hp & Hc & Hr). split.
    + eapply nth_error_In; eassumption.
    + assert (Hjl : (j < List.length hits)%nat)
        by (apply nth_error_Some; congruence).
      unfold len in *. lia.
  - apply collect_ranks_sorted.
  - now apply collect_scores_sorted.
Qed.

(** ** A query that could not be embedded *)





(** ** The extractors *)

Lemma lstrip_idem (s : string) : lstrip (lstrip s) = lstrip s.
Proof.
  destruct (lstrip_head s) as [->|(c & r & -> & Hc)]; [reflexivity|].
  cbn. now rewrite Hc.
Qed.

Lemma rstrip_cons c r :
  rstrip (String c r)
  = match rstrip r with
    | EmptyString => if isspace c then EmptyString else String c EmptyString
    | r' => String c r'
    end.
Proof. reflexivity. Qed.

Lemma rstrip_idem (s : string) : rstrip (rstrip s) = rstrip s.
Proof.
  induction s as [|c r IH]; [reflexivity|]. rewrite rstrip_cons.
  destruct (rstrip r) as [|d t] eqn:Hr.
  - destruct (isspace c) eqn:Hc; [reflexivity|]. cbn. now rewrite Hc.
  - rewrite rstrip_cons, IH. reflexivity.
Qed.

Lemma rstrip_head c r :
  isspace c = false -> exists r', rstrip (String c r) = String c r'.
Proof.
  intros Hc. cbn. rewrite Hc. destruct (rstrip r); eexists; reflexivity.
Qed.

(** Stripping twice is stripping once: a stripped text has no whitespace
    at either end. *)
Lemma strip_idem (s : string) : strip (strip s) = strip s.
Proof.
  unfold strip.
  destruct (lstrip_head s) as [->|(c & r & -> & Hc)]; [reflexivity|].
  destruct (rstrip_head c r Hc) as [r' Hr]. rewrite Hr.
  cbn [lstrip]. rewrite Hc, <- Hr. apply rstrip_idem.
Qed.

Lemma whitespace_only_app (a b : string) :
  whitespace_only (a ++ b)%string = whitespace_only a && whitespace_only b.
Proof.
  induction a as [|x a IH]; cbn; [reflexivity|].
  rewrite IH. now rewrite andb_assoc.
Qed.

(** The readable text of a page, as the loop of [extract_text_from_pdf]
    appends it. *)
Lemma fold_pages (pages : list (option string)) : forall text,
  fold_left
    (fun text page =>
       match page with
       | Some (String c r) => (text ++ String c r ++ App.newline)%string
       | _ => text
       end) pages text
  = (text ++ String.concat ""
       (flat_map (fun page =>
                    match page with
                    | Some (String c r) => [(String c r ++ App.newline)%string]
                    | _ => []
                    end) pages))%string.
Proof.
  assert (Hcat : forall (a : string) l,
            String.concat "" (a :: l) = (a ++ String.concat "" l)%string).
  { intros a [|b l]; cbn; [now rewrite str_app_empty_r|reflexivity]. }
  induction pages as [|page pages IH]; intros text; cbn [fold_left flat_map].
  - cbn. now rewrite str_app_empty_r.
  - rewrite IH. destruct page as [[|c r]|]; cbn [app]; try reflexivity.
    rewrite Hcat, !str_app_assoc. reflexivity.
Qed.

(** X10.  [extract_text_from_pdf] does not raise: for a file that cannot be
    opened it returns the empty text, and otherwise the texts of the pages
    that could be read and are not empty, in page order, each followed by a
    newline, the whole stripped; a page whose extraction raises is skipped.
    The result never starts or ends with whitespace. *)
Theorem extract_text_from_pdf_pages (bytes : Type)
  (pdfplumber_open : bytes -> option (list (option string)))
  (file : bytes) :
  let result := App.extract_text_from_pdf bytes pdfplumber_open file in
  (pdfplumber_open file = None -> result = ""%string)
  /\ (forall pages, pdfplumber_open file = Some pages ->
        result
        = strip (String.concat ""
                   (flat_map
                      (fun page =>
                         match page with
                         | Some (String c r) =>
                             [(String c r ++ App.newline)%string]
                         | _ => []
                         end) pages)))
  /\ strip result = result.
Proof.
  intros result. unfold result, App.extract_text_from_pdf.
  split; [intros ->; reflexivity|]. split.
  - intros pages ->. now rewrite fold_pages.
  - destruct (pdfplumber_open file); [apply strip_idem|reflexivity].
Qed.

Lemma extract_text_from_pdf_pages_witness :
  App.extract_text_from_pdf string
    (fun _ => Some [Some " first page"%string; None; Some ""%string;
                    Some "second page "%string]) "file"%string
  = ("first page" ++ App.newline ++ "second page")%string.
Proof.
  destruct (extract_text_from_pdf_pages string
              (fun _ => Some [Some " first page"%string; None; Some ""%string;
                              Some "second page "%string]) "file"%string)
    as (_ & H & _).
  rewrite (H _ eq_refl). reflexivity.
Defined.

Lemma fold_blank_texts (sep : string) (texts : list string) : forall text,
  Forall (fun t => strip t = ""%string) texts ->
  fold_left
    (fun text t =>
       match strip t with
       | EmptyString => text
       | _ => (text ++ t ++ sep)%string
       end) texts text
  = text.
Proof.
  induction texts as [|t texts IH]; intros text Hb; [reflexivity|].
  inversion Hb as [|? ? Ht Hts]; subst. cbn [fold_left]. rewrite Ht.
  now apply IH.
Qed.

Lemma fold_blank_rows (table : list (list string)) : forall text,
  Forall (Forall (fun t => strip t = ""%string)) table ->
  whitespace_only text = true ->
  whitespace_only
    (fold_left
       (fun text row =>
          (fold_left
             (fun text cell =>
                match strip cell with
                | EmptyString => text
                | _ => (text ++ cell ++ " ")%string
                end) row text ++ App.newline)%string)
       table text) = true.
Proof.
  induction table as [|row table IH]; intros text Hb Hw; [exact Hw|].
  inversion Hb as [|? ? Hrow Hrows]; subst. cbn [fold_left].
  apply IH; [assumption|].
  rewrite (fold_blank_texts " " row text Hrow), whitespace_only_app, Hw.
  reflexivity.
Qed.

Lemma fold_blank_tables (tables : list (list (list string))) : forall text,
  Forall (Forall (Forall (fun t => strip t = ""%string))) tables ->
  whitespace_only text = true ->
  whitespace_only
    (fold_left
       (fun text table =>
          fold_left
            (fun text row =>
               (fold_left
                  (fun text cell =>
                     match strip cell with
                     | EmptyString => text
                     | _ => (text ++ cell ++ " ")%string
                     end) row text ++ App.newline)%string)
            table text)
       tables text) = true.
Proof.
  induction tables as [|table tables IH]; intros text Hb Hw; [exact Hw|].
  inversion Hb as [|? ? Ht Hts]; subst. cbn [fold_left].
  apply IH; [assumption|]. now apply fold_blank_rows.
Qed.

(** X11.  [extract_text_from_docx] does not raise: for a file that cannot
    be opened it returns the empty text; for a document whose paragraphs
    and table cells are all blank it returns the empty text as well,
    although every table row appends a newline; and its result never
    starts or ends with whitespace. *)
Theorem extract_text_from_docx_blank (bytes : Type)
  (docx_Document : bytes -> option App.DocxDocument) (file : bytes) :
  let result := App.extract_text_from_docx bytes docx_Document file in
  (docx_Document file = None -> result = ""%string)
  /\ (forall doc, docx_Document file = Some doc ->
        Forall (fun p => strip p = ""%string) (App.paragraphs doc) ->
        Forall (Forall (Forall (fun t => strip t = ""%string)))
          (App.tables doc) ->
        result = ""%string)
  /\ strip result = result.
Proof.
  intros result. unfold result, App.extract_text_from_docx.
  split; [intros ->; reflexivity|]. split.
  - intros doc -> Hp Ht. apply strip_empty_iff.
    apply fold_blank_tables; [assumption|].
    now rewrite (fold_blank_texts App.newline).
  - destruct (docx_Document file); [apply strip_idem|reflexivity].
Qed.

Lemma extract_text_from_docx_blank_witness :
  App.extract_text_from_docx string
    (fun _ => Some (App.mkDocx [" "%string; ""%string]
                      [[[""%string; "  "%string]; []]]))
    "file"%string
  = ""%string.
Proof.
  destruct (extract_text_from_docx_blank string
              (fun _ => Some (App.mkDocx [" "%string; ""%string]
                                [[[""%string; "  "%string]; []]]))
              "file"%string) as (_ & H & _).
  apply (H _ eq_refl); repeat constructor.
Defined.

(** X12.  [extract_text_from_txt] returns the stripped UTF-8 text when the
    content decodes as UTF-8, and otherwise the stripped text of the first
    fallback encoding, latin-1, whenever that decoding succeeds: the later
    fallbacks (cp1252, iso-8859-1, UTF-8 with replacement) are then not
    tried.  The result never starts or ends with whitespace. *)
Theorem extract_text_from_txt_fallback (bytes : Type)
  (decode : string -> bytes -> option string)
  (decode_utf8_replace : bytes -> string)
  (file_content : bytes) (latin1 : string) :
  decode "latin-1"%string file_content = Some latin1 ->
  let result :=
    App.extract_text_from_txt bytes decode decode_utf8_replace
      file_content in
  result = strip (match decode "utf-8"%string file_content with
                  | Some text => text
                  | None => latin1
                  end)
  /\ strip result = result.
Proof.
  intros Hl result. unfold result, App.extract_text_from_txt.
  cbn [App.try_encodings]. rewrite Hl. split.
  - destruct (decode "utf-8"%string file_content); reflexivity.
  - apply strip_idem.
Qed.

Lemma extract_text_from_txt_fallback_witness :
  App.extract_text_from_txt string
    (fun enc b => if String.eqb enc "utf-8" then None else Some b)
    (fun b => b) " caf  "%string
  = "caf"%string.
Proof.
  apply (extract_text_from_txt_fallback string
           (fun enc b => if String.eqb enc "utf-8" then None else Some b)
           (fun b => b) " caf  "%string " caf  "%string).
  reflexivity.
Defined.

(** ** The orchestrator: documents, chunks and responses *)

(** Every chunk carries the source name it was chunked under. *)
Lemma chunk_text_sources (text0 src : string) (C O M : Z)
  (chunks : list Chunk) :
  chunk_text text0 src C O M = Some chunks ->
  Forall (fun c => source c = src) chunks.
Proof.
  intros Hrun. destruct (strip text0) eqn:Hb.
  - unfold chunk_text in Hrun.
    rewrite chunk_text_fuel_blank in Hrun by assumption.
    injection Hrun as <-. constructor.
  - assert (HW : 0 < len (words_of text0))
      by (apply words_of_nonblank; congruence).
    destruct (Z.le_gt_cases (len (words_of text0)) C) as [Hle|Hgt].
    + unfold chunk_text in Hrun.
      rewrite chunk_text_fuel_short in Hrun by assumption.
      destruct (M <=? len (words_of text0)); injection Hrun as <-;
        repeat constructor.
    + apply chunk_text_long_run in Hrun; [|lia..].
      apply Forall_forall. intros c Hc. apply In_nth_error in Hc as [i Hi].
      now destruct (run_ids _ _ _ _ _ _ _ _ Hrun _ _ Hi) as (_ & _ & ?).
Qed.

(** A text of fewer than 50 words gives no chunk under the defaults. *)
Lemma chunk_text_default_short (text0 src : string) :
  len (words_of text0) < 50 ->
  chunk_text text0 src default_chunk_size default_overlap
    default_min_chunk_size = Some [].
Proof.
  intros HW. unfold chunk_text. destruct (strip text0) eqn:Hb.
  - now apply chunk_text_fuel_blank.
  - assert (H0 : 0 < len (words_of text0))
      by (apply words_of_nonblank; congruence).
    rewrite chunk_text_fuel_short
      by (unfold default_chunk_size; lia).
    unfold default_min_chunk_size.
    destruct (Z.leb_spec 50 (len (words_of text0))); [lia|reflexivity].
Qed.

Section DocumentLoop.
Variable bytes : Type.
Variable pdfplumber_open : bytes -> option (list (option string)).
Variable docx_Document : bytes -> option App.DocxDocument.
Variable decode_utf8 : bytes -> string + string.
Variable encode : list string -> option (list vector).
Variable LlmResponse : Type.
Variable call_gemini : string -> list string -> LlmResponse.

Local Abbreviation extract_text_from_file :=
  (App.extract_text_from_file bytes pdfplumber_open docx_Document
     decode_utf8).
Local Abbreviation process_files :=
  (App.process_files bytes pdfplumber_open docx_Document decode_utf8
     LlmResponse).
Local Abbreviation hackrx_webhook :=
  (App.hackrx_webhook bytes pdfplumber_open docx_Document decode_utf8
     encode LlmResponse call_gemini).
Local Abbreviation answer :=
  (App.answer bytes encode LlmResponse call_gemini).

Local Abbreviation document_chunks :=
  (App.document_chunks bytes pdfplumber_open docx_Document decode_utf8).

Lemma process_files_all (files : list (string * bytes)) :
  forall all_chunks calls,
    (forall n c, In (n, c) files ->
                 exists t, extract_text_from_file c n = inl t) ->
    exists per_file,
      Forall2 document_chunks files per_file
      /\ process_files files all_chunks calls
         = Some (App.Collected (all_chunks ++ List.concat per_file),
                 calls ++ map fst files).
Proof.
  induction files as [|[n c] files IH]; intros all_chunks calls Hok.
  - exists []. split; [constructor|]. cbn. now rewrite !app_nil_r.
  - destruct (Hok n c (or_introl eq_refl)) as [t Ht].
    assert (Hok' : forall n c, In (n, c) files ->
                     exists t, extract_text_from_file c n = inl t)
      by (intros; apply Hok; now right).
    cbn [App.process_files]. rewrite Ht.
    destruct (strip t) eqn:Hs.
    + destruct (IH all_chunks (calls ++ [n]) Hok') as (per & Hper & Hrun).
      exists ([] :: per). split.
      * constructor; [|assumption]. exists t. cbn. split; [assumption|].
        left. split; [assumption|reflexivity].
      * rewrite Hrun. cbn. now rewrite <- app_assoc.
    + destruct (chunk_text_total t n default_chunk_size default_overlap
                  default_min_chunk_size) as [chunks Hchunks];
        [unfold default_chunk_size, default_overlap; lia|].
      rewrite Hchunks.
      destruct (IH (all_chunks ++ chunks) (calls ++ [n]) Hok')
        as (per & Hper & Hrun).
      exists (chunks :: per). split.
      * constructor; [|assumption]. exists t. cbn. split; [assumption|].
        right. split; [congruence|assumption].
      * rewrite Hrun. cbn. now rewrite <- !app_assoc.
Qed.

(** A loop that ends with the chunks has passed every document once, and
    every chunk it added is named after one of them. *)
Lemma process_files_collected (files : list (string * bytes)) :
  forall all_chunks calls all_chunks' calls',
    process_files files all_chunks calls
    = Some (App.Collected all_chunks', calls') ->
    calls' = calls ++ map fst files
    /\ exists added,
         all_chunks' = all_chunks ++ added
         /\ Forall (fun c => In (source c) (map fst files)) added.
Proof.
  induction files as [|[n c] files IH];
    intros all_chunks calls all_chunks' calls' Hrun.
  - cbn in Hrun. injection Hrun as <- <-. split; [now rewrite app_nil_r|].
    exists []. split; [now rewrite app_nil_r|constructor].
  - cbn [App.process_files] in Hrun.
    destruct (extract_text_from_file c n) as [t|e]; [|discriminate].
    destruct (strip t) eqn:Hs.
    + apply IH in Hrun as (-> & added & -> & Hadded).
      split; [cbn; now rewrite <- app_assoc|].
      exists added. split; [reflexivity|].
      eapply Forall_impl; [|exact Hadded]. cbn. auto.
    + destruct (chunk_text t n default_chunk_size default_overlap
                  default_min_chunk_size) as [chunks|] eqn:Hchunks;
        [|discriminate].
      apply IH in Hrun as (-> & added & -> & Hadded).
      split; [cbn; now rewrite <- app_assoc|].
      exists (chunks ++ added). split; [now rewrite app_assoc|].
      apply Forall_app. split.
      * eapply Forall_impl; [|apply (chunk_text_sources _ _ _ _ _ _ Hchunks)].
        cbn. intros x ->. now left.
      * eapply Forall_impl; [|exact Hadded]. cbn. auto.
Qed.

(** The loop always ends; it has then called the extraction on a prefix of
    the documents, in order, and an abort is an error 500. *)
Lemma process_files_total (files : list (string * bytes)) :
  forall all_chunks calls,
    exists out passed rest,
      process_files files all_chunks calls = Some (out, calls ++ passed)
      /\ map fst files = passed ++ rest
      /\ forall r, out = App.Aborted r -> exists msg,
           r = (App.ErrorJson msg, 500).
Proof.
  induction files as [|[n c] files IH]; intros all_chunks calls.
  - exists (App.Collected all_chunks), [], []. cbn. rewrite app_nil_r.
    repeat split. intros r H. discriminate.
  - cbn [App.process_files].
    destruct (extract_text_from_file c n) as [t|e].
    + assert (Hnext : forall acc,
                exists out passed rest,
                  process_files files acc (calls ++ [n])
                  = Some (out, calls ++ passed)
                  /\ map fst ((n, c) :: files) = passed ++ rest
                  /\ forall r, out = App.Aborted r -> exists msg,
                       r = (App.ErrorJson msg, 500)).
      { intros acc.
        destruct (IH acc (calls ++ [n])) as (out & passed & rest & H1 & H2 & H3).
        exists out, (n :: passed), rest. rewrite H1, <- app_assoc.
        repeat split; [cbn; now rewrite H2|assumption]. }
      destruct (strip t) eqn:Hs; [apply Hnext|].
      destruct (chunk_text_total t n default_chunk_size default_overlap
                  default_min_chunk_size) as [chunks Hchunks];
        [unfold default_chunk_size, default_overlap; lia|].
      rewrite Hchunks. apply Hnext.
    + eexists. exists [n], (map fst files). split; [reflexivity|].
      split; [reflexivity|]. intros r [= <-]. eexists. reflexivity.
Qed.

Lemma answer_status (query : string) (files : list (string * bytes))
  (all_chunks : list Chunk) :
  In (snd (answer query files all_chunks)) [200; 400; 404; 500]
  /\ (snd (answer query files all_chunks) = 200 <->
      exists r m, fst (answer query files all_chunks) = App.AcceptedJson r m).
Proof.
  unfold App.answer.
  destruct all_chunks;
    [cbn; split; [tauto|split; [discriminate|intros (? & ? & ?); discriminate]]|].
  destruct (size _ =? 0);
    [cbn; split; [tauto|split; [discriminate|intros (? & ? & ?); discriminate]]|].
  destruct (create_faiss_index _);
    [|cbn; split; [tauto|split; [discriminate|intros (? & ? & ?); discriminate]]].
  destruct (retrieve_top_k_chunks _ _ _ _);
    [cbn; split; [tauto|split; [discriminate|intros (? & ? & ?); discriminate]]|].
  cbn. split; [tauto|]. split; [intros _; eexists; eexists; reflexivity|reflexivity].
Qed.

End DocumentLoop.

(** X13.  When no extraction raises, the loop over the uploaded documents
    ends with the chunks of all documents concatenated in upload order,
    each document chunked on its own under its file name with the default
    parameters (a document whose text is blank adds none), after exactly
    one extraction call per document, in order. *)
Theorem process_files_concatenates (bytes : Type)
  (pdfplumber_open : bytes -> option (list (option string)))
  (docx_Document : bytes -> option App.DocxDocument)
  (decode_utf8 : bytes -> string + string) (LlmResponse : Type)
  (files : list (string * bytes)) :
  (forall n c, In (n, c) files ->
     exists t, App.extract_text_from_file bytes pdfplumber_open
                 docx_Document decode_utf8 c n = inl t) ->
  exists per_file,
    Forall2 (App.document_chunks bytes pdfplumber_open docx_Document
               decode_utf8) files per_file
    /\ App.process_files bytes pdfplumber_open docx_Document decode_utf8
         LlmResponse files [] []
       = Some (App.Collected (List.concat per_file), map fst files).
Proof.
  intros Hok.
  destruct (process_files_all bytes pdfplumber_open docx_Document
              decode_utf8 LlmResponse files [] [] Hok) as (per & Hper & Hrun).
  exists per. split; [exact Hper|exact Hrun].
Qed.

Lemma process_files_concatenates_witness :
  exists per_file,
    App.process_files string (fun _ => None) (fun _ => None)
      (fun b => inl b) unit
      [("scan.pdf"%string, "not a pdf"%string);
       ("company_policy.txt"%string, App.test_document)] [] []
    = Some (App.Collected (List.concat per_file),
            ["scan.pdf"%string; "company_policy.txt"%string]).
Proof.
  destruct (process_files_concatenates string (fun _ => None)
              (fun _ => None) (fun b => inl b) unit
              [("scan.pdf"%string, "not a pdf"%string);
               ("company_policy.txt"%string, App.test_document)])
    as (per & _ & H).
  - intros n c [[= <- <-]|[[= <- <-]|[]]]; eexists; reflexivity.
  - exists per. exact H.
Defined.

(** X14.  [hackrx_webhook] answers every request: with one of the statuses
    200, 400, 404 and 500, the status 200 exactly with the accepted body;
    and it has called the extraction on a prefix of the uploaded documents,
    in upload order, on none of them twice. *)
Theorem hackrx_webhook_always_answers (bytes : Type)
  (pdfplumber_open : bytes -> option (list (option string)))
  (docx_Document : bytes -> option App.DocxDocument)
  (decode_utf8 : bytes -> string + string)
  (encode : list string -> option (list vector))
  (LlmResponse : Type) (call_gemini : string -> list string -> LlmResponse)
  (query : option string) (files : list (string * bytes)) :
  exists body status calls rest,
    App.hackrx_webhook bytes pdfplumber_open docx_Document decode_utf8
      encode LlmResponse call_gemini query files
    = Some ((body, status), calls)
    /\ In status [200; 400; 404; 500]
    /\ (status = 200 <-> exists r m, body = App.AcceptedJson r m)
    /\ map fst files = calls ++ rest.
Proof.
  assert (Herr : forall msg (status : Z),
            status <> 200 ->
            (status = 200 <->
             exists r m, @App.ErrorJson LlmResponse msg = App.AcceptedJson r m)).
  { intros msg status Hst. split; [contradiction|].
    intros (r & m & H). discriminate. }
  unfold App.hackrx_webhook.
  destruct query as [[|q0 q]|].
  1,3: eexists; eexists; exists [], (map fst files);
    split; [reflexivity|]; split; [cbn; tauto|];
    split; [apply Herr; lia|reflexivity].
  destruct files as [|f files].
  { eexists. eexists. exists [], []. split; [reflexivity|].
    split; [cbn; tauto|]. split; [apply Herr; lia|reflexivity]. }
  destruct (process_files_total bytes pdfplumber_open docx_Document
              decode_utf8 LlmResponse (f :: files) [] [])
    as (out & passed & rest & Hrun & Hpre & Hab).
  rewrite Hrun. cbn [app]. destruct out as [r|all_chunks].
  - destruct (Hab r eq_refl) as [msg ->].
    eexists. eexists. exists passed, rest. split; [reflexivity|].
    split; [cbn; tauto|]. split; [apply Herr; lia|exact Hpre].
  - destruct (answer_status bytes encode LlmResponse call_gemini
                (String q0 q) (f :: files) all_chunks) as [Hin Hiff].
    destruct (App.answer bytes encode LlmResponse call_gemini (String q0 q)
                (f :: files) all_chunks) as [body status].
    exists body, status, passed, rest. split; [reflexivity|].
    split; [exact Hin|]. split; [exact Hiff|exact Hpre].
Qed.

(** X15.  When every uploaded document extracts, without raising, to a text
    of fewer than 50 words (a blank text included), the request is refused
    with the status 400 and the error that no text could be extracted,
    after every document has been tried. *)
Theorem hackrx_webhook_no_content (bytes : Type)
  (pdfplumber_open : bytes -> option (list (option string)))
  (docx_Document : bytes -> option App.DocxDocument)
  (decode_utf8 : bytes -> string + string)
  (encode : list string -> option (list vector))
  (LlmResponse : Type) (call_gemini : string -> list string -> LlmResponse)
  (query : string) (files : list (string * bytes)) :
  query <> ""%string -> files <> [] ->
  (forall n c, In (n, c) files ->
     exists t, App.extract_text_from_file bytes pdfplumber_open
                 docx_Document decode_utf8 c n = inl t
               /\ len (words_of t) < 50) ->
  App.hackrx_webhook bytes pdfplumber_open docx_Document decode_utf8
    encode LlmResponse call_gemini (Some query) files
  = Some ((App.ErrorJson "No text could be extracted from any documents",
           400), map fst files).
Proof.
  intros Hq Hfiles Hshort.
  assert (Hrun : forall fs acc calls,
            (forall n c, In (n, c) fs -> In (n, c) files) ->
            App.process_files bytes pdfplumber_open docx_Document
              decode_utf8 LlmResponse fs acc calls
            = Some (App.Collected acc, calls ++ map fst fs)).
  { induction fs as [|[n c] fs IH]; intros acc calls Hsub.
    - cbn. now rewrite app_nil_r.
    - destruct (Hshort n c (Hsub n c (or_introl eq_refl))) as (t & Ht & HW).
      cbn [App.process_files]. rewrite Ht.
      assert (Hnext : App.process_files bytes pdfplumber_open docx_Document
                        decode_utf8 LlmResponse fs acc (calls ++ [n])
                      = Some (App.Collected acc,
                              calls ++ map fst ((n, c) :: fs))).
      { rewrite IH by (intros; apply Hsub; now right).
        cbn. now rewrite <- app_assoc. }
      destruct (strip t) eqn:Hs; [exact Hnext|].
      rewrite (chunk_text_default_short t n HW), app_nil_r.
      exact Hnext. }
  unfold App.hackrx_webhook. destruct query as [|q0 q]; [congruence|].
  destruct files as [|f files'] eqn:Hf; [congruence|]. rewrite <- Hf in *.
  rewrite (Hrun files [] []) by auto. reflexivity.
Qed.

Lemma hackrx_webhook_no_content_witness :
  App.hackrx_webhook string (fun _ => None) (fun _ => None)
    (fun b => inl b) (fun texts => Some (map (fun _ => [1%R]) texts))
    unit (fun _ _ => tt) (Some "is the claim covered?"%string)
    [("scan.pdf"%string, "not a pdf"%string);
     ("notes.txt"%string, "too short to be a chunk"%string)]
  = Some ((App.ErrorJson "No text could be extracted from any documents",
           400), ["scan.pdf"%string; "notes.txt"%string]).
Proof.
  apply (hackrx_webhook_no_content string (fun _ => None) (fun _ => None)
           (fun b => inl b) (fun texts => Some (map (fun _ => [1%R]) texts))
           unit (fun _ _ => tt)).
  - discriminate.
  - discriminate.
  - intros n c [[= <- <-]|[[= <- <-]|[]]]; eexists;
      (split; [reflexivity|vm_compute; reflexivity]).
Defined.

Lemma retrieve_top_k_chunks_members (q : vector)
  (index : option IndexFlatIP) (chunks : list Chunk) (k : Z) :
  len (retrieve_top_k_chunks q index chunks k)
  <= Z.max 0 (Z.min k (len chunks))
  /\ Forall (fun rc => In (chunk rc) chunks)
       (retrieve_top_k_chunks q index chunks k).
Proof.
  unfold retrieve_top_k_chunks.
  assert (Hnil : len (@nil RankedChunk) <= Z.max 0 (Z.min k (len chunks)))
    by (unfold len; cbn; lia).
  destruct index as [index|]; [|split; [exact Hnil|constructor]].
  destruct (len chunks =? 0); [split; [exact Hnil|constructor]|].
  destruct (search_hits q index chunks k) as [hits|] eqn:Hs;
    [|split; [exact Hnil|constructor]].
  destruct (search_hits_facts _ _ _ _ _ Hs) as (Hlen & _).
  pose proof (collect_length chunks hits 0) as Hcl. split.
  - unfold len in *. lia.
  - eapply Forall_impl; [|apply (collect_origin chunks hits 0)]. cbn beta.
    intros rc (j & p & _ & _ & Hc & _). eapply nth_error_In; eassumption.
Qed.

(** X16.  Whenever [hackrx_webhook] answers with the accepted body, the
    status is 200, every uploaded document was extracted once, and the
    metadata are consistent: [total_documents] counts the uploaded files,
    between 1 and [min(5, total_chunks)] chunks were retrieved, and
    [sources] lists names of uploaded files, none of them twice. *)
Theorem hackrx_webhook_metadata (bytes : Type)
  (pdfplumber_open : bytes -> option (list (option string)))
  (docx_Document : bytes -> option App.DocxDocument)
  (decode_utf8 : bytes -> string + string)
  (encode : list string -> option (list vector))
  (LlmResponse : Type) (call_gemini : string -> list string -> LlmResponse)
  (query : option string) (files : list (string * bytes))
  (response : LlmResponse) (metadata : App.Metadata) (status : Z)
  (calls : list string) :
  App.hackrx_webhook bytes pdfplumber_open docx_Document decode_utf8
    encode LlmResponse call_gemini query files
  = Some ((App.AcceptedJson response metadata, status), calls) ->
  status = 200
  /\ calls = map fst files
  /\ App.total_documents metadata = len files
  /\ 1 <= App.retrieved_chunks metadata
  /\ App.retrieved_chunks metadata <= Z.min 5 (App.total_chunks metadata)
  /\ NoDup (App.sources metadata)
  /\ forall s, In s (App.sources metadata) -> In s (map fst files).
Proof.
  unfold App.hackrx_webhook. intros H.
  destruct query as [[|q0 q]|]; try discriminate.
  destruct files as [|f files'] eqn:Hf; [discriminate|]. rewrite <- Hf in *.
  destruct (process_files_total bytes pdfplumber_open docx_Document
              decode_utf8 LlmResponse files [] [])
    as (out & passed & rest & Hrun & Hpre & Hab).
  rewrite Hrun in H. cbn [app] in *. destruct out as [r|all_chunks].
  { destruct (Hab r eq_refl) as [msg ->]. discriminate. }
  apply process_files_collected in Hrun as (Hcalls & added & Hall & Hsrc).
  cbn [app] in Hcalls, Hall. subst added.
  injection H as Hans Hc. subst calls.
  unfold App.answer in Hans.
  destruct all_chunks as [|c0 cs] eqn:Hchunks; [discriminate|].
  rewrite <- Hchunks in *.
  destruct (size _ =? 0); [discriminate|].
  destruct (create_faiss_index _) as [index|]; [|discriminate].
  destruct (retrieve_top_k_chunks_members
              (App.embed_query encode (String q0 q)) (Some index)
              all_chunks 5) as [Hlen Hmem].
  destruct (retrieve_top_k_chunks _ _ _ _) as [|rc0 rcs] eqn:Htop;
    [discriminate|].
  injection Hans as _ <- <-. cbn [App.total_documents App.retrieved_chunks
    App.total_chunks App.sources].
  assert (Hpos : 1 <= len (rc0 :: rcs)) by (unfold len; cbn; lia).
  split; [reflexivity|]. split; [exact Hcalls|]. split; [reflexivity|].
  split; [exact Hpos|]. split; [lia|].
  split;
    [apply (NoDup_nodup string_dec
              (map (fun c => source (chunk c)) (rc0 :: rcs)))|].
  intros s Hs.
  change (In s (nodup string_dec
                  (map (fun c => source (chunk c)) (rc0 :: rcs)))) in Hs.
  apply nodup_In, in_map_iff in Hs as (rc & <- & Hrc).
  rewrite Forall_forall in Hmem, Hsrc. apply Hsrc, Hmem, Hrc.
Qed.

(** The request with the document of the repository's test is accepted. *)
Lemma hackrx_webhook_test_document :
  exists metadata,
    App.hackrx_webhook string (fun _ => None) (fun _ => None)
      (fun b => inl b) (fun texts => Some (map (fun _ => [1%R]) texts))
      unit (fun _ _ => tt) (Some "is the claim covered?"%string)
      [("company_policy.txt"%string, App.test_document)]
    = Some ((App.AcceptedJson tt metadata, 200),
            ["company_policy.txt"%string]).
Proof.
  set (files := [("company_policy.txt"%string, App.test_document)]).
  set (chunks := [mkChunk (normalize App.test_document)
                    "company_policy.txt" 0 0 96 96]).
  assert (Hp : App.process_files string (fun _ => None) (fun _ => None)
                 (fun b => inl b) unit files [] []
               = Some (App.Collected chunks, ["company_policy.txt"%string]))
    by (vm_compute; reflexivity).
  unfold App.hackrx_webhook. cbv iota beta. unfold files at 1.
  change (App.process_files string (fun _ => None) (fun _ => None)
            (fun b => inl b) unit
            [("company_policy.txt"%string, App.test_document)] [] [])
    with (App.process_files string (fun _ => None) (fun _ => None)
            (fun b => inl b) unit files [] []).
  rewrite Hp. unfold App.answer, chunks.
  change (App.generate_embeddings
            (fun texts => Some (map (fun _ => [1%R]) texts))
            [mkChunk (normalize App.test_document) "company_policy.txt"
               0 0 96 96]) with [[1%R]].
  change (size [[1%R]] =? 0) with false. cbv iota.
  rewrite create_faiss_index_some by (vm_compute; discriminate).
  change (App.embed_query (fun texts => Some (map (fun _ => [1%R]) texts))
            "is the claim covered?") with [1%R].
  set (index := mkIndex (List.length (hd [] (normalize_L2 [[1%R]])))
                  (normalize_L2 [[1%R]])).
  fold chunks.
  destruct (search_hits_valid index [1%R] chunks 5)
    as (hits & Hs & Hl & Hin);
    [reflexivity|reflexivity|cbn; now rewrite renorm_L2_length|lia|].
  rewrite (retrieve_top_k_chunks_eq index [1%R] chunks 5 hits)
    by (assumption || discriminate).
  destruct (collect_valid chunks hits Hin 0) as [Hcl _].
  destruct (collect chunks 0 hits); [|eexists; reflexivity].
  destruct hits; [discriminate Hl|discriminate Hcl].
Qed.

Lemma hackrx_webhook_metadata_witness :
  exists metadata,
    App.total_documents metadata = 1
    /\ App.retrieved_chunks metadata <= Z.min 5 (App.total_chunks metadata)
    /\ forall s, In s (App.sources metadata) ->
                 In s ["company_policy.txt"%string].
Proof.
  destruct hackrx_webhook_test_document as [metadata H].
  exists metadata.
  destruct (hackrx_webhook_metadata _ _ _ _ _ _ _ _ _ _ _ _ _ H)
    as (_ & _ & H3 & _ & H5 & _ & H7).
  split; [exact H3|]. split; [exact H5|exact H7].
Defined.

(** ** The JSON object inside an answer *)

Lemma find_char_lower (c : ascii) (s : string) : -1 <= find_char c s.
Proof.
  induction s as [|a r IH]; cbn; [lia|].
  destruct (Ascii.eqb a c); [lia|].
  destruct (Z.ltb_spec (find_char c r) 0); lia.
Qed.

Lemma rfind_char_lower (c : ascii) (s : string) : -1 <= rfind_char c s.
Proof.
  induction s as [|a r IH]; cbn; [lia|].
  destruct (Z.leb_spec 0 (rfind_char c r)); [lia|].
  destruct (Ascii.eqb a c); lia.
Qed.

(** The first occurrence, after a prefix without any. *)
Lemma find_char_app (c : ascii) (pre rest : string) :
  find_char c pre = -1 ->
  find_char c (pre ++ String c rest)%string = str_len pre.
Proof.
  unfold str_len. induction pre as [|a r IH]; intros Hno.
  - cbn. now rewrite Ascii.eqb_refl.
  - cbn [find_char append String.length] in *.
    destruct (Ascii.eqb a c); [discriminate|].
    pose proof (find_char_lower c r) as Hl.
    destruct (Z.ltb_spec (find_char c r) 0) as [Hneg|]; [|lia].
    rewrite IH by lia.
    destruct (Z.ltb_spec (Z.of_nat (String.length r)) 0); lia.
Qed.

(** The last occurrence, before a suffix without any. *)
Lemma rfind_char_app (c : ascii) (s post : string) :
  rfind_char c post = -1 ->
  rfind_char c (s ++ String c post)%string = str_len s.
Proof.
  unfold str_len. intros Hno. induction s as [|a r IH].
  - cbn. rewrite Hno. cbn. now rewrite Ascii.eqb_refl.
  - cbn [rfind_char append String.length]. rewrite IH.
    destruct (Z.leb_spec 0 (Z.of_nat (String.length r))); lia.
Qed.

Lemma list_ascii_app (a b : string) :
  list_ascii_of_string (a ++ b)
  = list_ascii_of_string a ++ list_ascii_of_string b.
Proof. induction a as [|x a IH]; cbn; [reflexivity|now rewrite IH]. Qed.

Lemma length_list_ascii (s : string) :
  List.length (list_ascii_of_string s) = String.length s.
Proof. induction s as [|x s IH]; cbn; [reflexivity|now rewrite IH]. Qed.

(** The slice that cuts the middle out of three parts. *)
Lemma str_slice_middle (pre obj post : string) :
  str_slice (pre ++ obj ++ post) (str_len pre) (str_len pre + str_len obj)
  = obj.
Proof.
  unfold str_slice, slice, slice_bound, str_len, len.
  rewrite !list_ascii_app, !length_app, !length_list_ascii.
  destruct (Z.ltb_spec (Z.of_nat (String.length pre)) 0); [lia|].
  destruct (Z.ltb_spec (Z.of_nat (String.length pre)
                        + Z.of_nat (String.length obj)) 0); [lia|].
  rewrite !Z.min_l by lia.
  replace (Z.to_nat (Z.of_nat (String.length pre)
                     + Z.of_nat (String.length obj)
                     - Z.of_nat (String.length pre)))
    with (String.length obj) by lia.
  rewrite Nat2Z.id, <- (length_list_ascii pre), skipn_app, skipn_all,
    Nat.sub_diag.
  cbn [skipn app]. rewrite <- (length_list_ascii obj), firstn_app, firstn_all,
    Nat.sub_diag. cbn [firstn]. rewrite app_nil_r.
  apply string_of_list_ascii_of_string.
Qed.

(** X18.  An answer that wraps a JSON object in other text is parsed from
    its object: when the stripped answer consists of a prefix without an
    opening brace, a text from an opening to a closing brace, and a suffix
    without a closing brace, [call_gemini] hands exactly that text to
    [json.loads].  It returns the completed object when the text parses
    (the error of the overflowing conversion when the completion raises
    it), the fallback for the whole answer when [json.loads] raises a
    [JSONDecodeError], and the error response with the message of any
    other exception of [json.loads]. *)
Theorem call_gemini_extracts_object
  (float_of_int : Z -> option LlmJson.pyfloat)
  (float_of_str : string -> option LlmJson.pyfloat)
  (json_loads : string -> LlmJson.loaded)
  (key : string) (generate_content : string -> string -> Llm.Generated)
  (query response_text : string) (chunks : list string)
  (pre body post : string) :
  key <> ""%string ->
  generate_content (join Llm.newline2 (Llm.numbered 0 chunks)) query
    = Llm.Text response_text ->
  strip response_text = (pre ++ (String "{" body ++ "}") ++ post)%string ->
  find_char "{" pre = -1 -> rfind_char "}" post = -1 ->
  LlmJson.call_gemini float_of_int float_of_str json_loads (Some key)
    generate_content query chunks
  = match json_loads (String "{" body ++ "}")%string with
    | LlmJson.Loaded parsed =>
        match LlmJson.with_required_fields float_of_int float_of_str parsed
        with
        | Some completed => Llm.ParsedResponse LlmJson.dict completed
        | None =>
            Llm.ErrorResponse LlmJson.dict
              ("Failed to process query: " ++ LlmJson.overflow_message)
        end
    | LlmJson.JSONDecodeError =>
        Llm.FallbackResponse LlmJson.dict
          (Llm.create_fallback_response query response_text)
    | LlmJson.OtherError e =>
        Llm.ErrorResponse LlmJson.dict ("Failed to process query: " ++ e)
    end.
Proof.
  intros Hkey Hgen Hstrip Hpre Hpost.
  unfold LlmJson.call_gemini. destruct key as [|k0 k]; [congruence|].
  rewrite Hgen. unfold LlmJson.parse_answer.
  destruct response_text as [|c0 r0].
  { destruct pre; discriminate Hstrip. }
  rewrite Hstrip.
  set (obj := (String "{" body ++ "}")%string).
  assert (Hfind : find_char "{" (pre ++ obj ++ post)%string = str_len pre).
  { unfold obj. cbn [append]. now apply find_char_app. }
  assert (Hrfind : rfind_char "}" (pre ++ obj ++ post)%string
                   = str_len pre + str_len obj - 1).
  { replace (pre ++ obj ++ post)%string
      with ((pre ++ String "{" body) ++ String "}" post)%string.
    - rewrite rfind_char_app by assumption.
      unfold obj, str_len. rewrite !str_length_append. cbn [String.length].
      lia.
    - unfold obj. cbn [append]. rewrite !str_app_assoc. cbn [append].
      reflexivity. }
  rewrite Hfind, Hrfind.
  assert (H0 : 0 <= str_len pre) by (unfold str_len; lia).
  assert (H1 : 0 < str_len obj) by (unfold obj, str_len; cbn; lia).
  destruct (Z.eqb_spec (str_len pre) (-1)); [lia|].
  destruct (Z.eqb_spec (str_len pre + str_len obj - 1 + 1) 0); [lia|].
  cbn [orb].
  replace (str_len pre + str_len obj - 1 + 1)
    with (str_len pre + str_len obj) by lia.
  rewrite str_slice_middle. reflexivity.
Qed.

(** The witness: the empty object inside a sentence; [json.loads] is taken
    on the one text it is given. *)
Lemma call_gemini_extracts_object_witness :
  LlmJson.call_gemini (fun _ => None) (fun _ => None)
    (fun s => if String.eqb s "{}" then LlmJson.Loaded []
              else LlmJson.JSONDecodeError)
    (Some "key"%string)
    (fun _ _ => Llm.Text " Here it is: {} as asked. "%string)
    "is the claim covered?" ["clause one"%string]
  = Llm.ParsedResponse LlmJson.dict
      [("decision"%string, LlmJson.Str "unknown");
       ("confidence"%string, LlmJson.Float (LlmJson.Finite (1 # 2)))].
Proof.
  apply (call_gemini_extracts_object (fun _ => None) (fun _ => None)
           (fun s => if String.eqb s "{}" then LlmJson.Loaded []
                     else LlmJson.JSONDecodeError)
           "key"%string
           (fun _ _ => Llm.Text " Here it is: {} as asked. "%string)
           "is the claim covered?"%string
           " Here it is: {} as asked. "%string ["clause one"%string]
           "Here it is: "%string ""%string " as asked."%string).
  - discriminate.
  - reflexivity.
  - reflexivity.
  - reflexivity.
  - reflexivity.
Defined.

(** ** The required fields of a parsed answer *)

Lemma get_setitem_same (d : LlmJson.dict) (key : string) (v : LlmJson.value) :
  LlmJson.get (LlmJson.setitem d key v) key = Some v.
Proof.
  induction d as [|[k v0] rest IH]; cbn.
  - now rewrite String.eqb_refl.
  - destruct (String.eqb k key) eqn:E; cbn; rewrite E; [reflexivity|exact IH].
Qed.

Lemma get_setitem_other (d : LlmJson.dict) (key key' : string)
  (v : LlmJson.value) :
  key' <> key ->
  LlmJson.get (LlmJson.setitem d key v) key' = LlmJson.get d key'.
Proof.
  intros Hne. induction d as [|[k v0] rest IH]; cbn.
  - destruct (String.eqb_spec key key'); [congruence|reflexivity].
  - destruct (String.eqb_spec k key) as [->|Hk]; cbn.
    + destruct (String.eqb_spec key key'); [congruence|reflexivity].
    + destruct (String.eqb k key'); [reflexivity|exact IH].
Qed.

Lemma get_add_missing_same (d : LlmJson.dict) (field : string) :
  LlmJson.get (LlmJson.add_missing d field) field
  = Some match LlmJson.get d field with
         | Some v => v
         | None =>
             if String.eqb field "decision" then LlmJson.Str "unknown"
             else LlmJson.Float (LlmJson.Finite (1 # 2))
         end.
Proof.
  unfold LlmJson.add_missing.
  destruct (LlmJson.get d field) eqn:E; [exact E|apply get_setitem_same].
Qed.

Lemma get_add_missing_other (d : LlmJson.dict) (field key : string) :
  key <> field ->
  LlmJson.get (LlmJson.add_missing d field) key = LlmJson.get d key.
Proof.
  intros Hne. unfold LlmJson.add_missing.
  destruct (LlmJson.get d field); [reflexivity|now apply get_setitem_other].
Qed.

(** [max(0.0, min(1.0, c))] is a finite float between 0 and 1, also for an
    infinite [c] and for a NaN. *)
Lemma clamp_in_range (c : LlmJson.pyfloat) :
  exists x,
    LlmJson.float_max (LlmJson.Finite 0)
      (LlmJson.float_min (LlmJson.Finite 1) c) = LlmJson.Finite x
    /\ (0 <= x <= 1)%Q.
Proof.
  assert (H01 : (0 <= 1)%Q) by (unfold Qle; cbn; lia).
  assert (H00 : (0 <= 0)%Q) by apply Qle_refl.
  assert (H11 : (1 <= 1)%Q) by apply Qle_refl.
  destruct c as [y|[|]|].
  - unfold LlmJson.float_min, LlmJson.float_lt.
    destruct (Qle_bool 1 y) eqn:E1; cbn [negb].
    + exists 1%Q. split; [reflexivity|split; assumption].
    + assert (Hy1 : (y < 1)%Q).
      { apply Qnot_le_lt. intros Hle. apply Qle_bool_iff in Hle. congruence. }
      unfold LlmJson.float_max, LlmJson.float_lt.
      destruct (Qle_bool y 0) eqn:E0; cbn [negb].
      * exists 0%Q. split; [reflexivity|split; assumption].
      * exists y. split; [reflexivity|]. split.
        -- apply Qlt_le_weak, Qnot_le_lt. intros Hle.
           apply Qle_bool_iff in Hle. congruence.
        -- now apply Qlt_le_weak.
  - exists 0%Q. split; [reflexivity|split; assumption].
  - exists 1%Q. split; [reflexivity|split; assumption].
  - exists 1%Q. split; [reflexivity|split; assumption].
Qed.

Section RequiredFields.
Variable float_of_int : Z -> option LlmJson.pyfloat.
Variable float_of_str : string -> option LlmJson.pyfloat.

Local Abbreviation with_required_fields :=
  (LlmJson.with_required_fields float_of_int float_of_str).
Local Abbreviation float := (LlmJson.float float_of_int float_of_str).

(** The two dictionaries around the conversion of the confidence. *)
Lemma with_required_fields_inv (d : LlmJson.dict) :
  exists d2 conf,
    LlmJson.get d2 "confidence" = Some conf
    /\ conf = match LlmJson.get d "confidence" with
              | Some v => v
              | None => LlmJson.Float (LlmJson.Finite (1 # 2))
              end
    /\ LlmJson.get d2 "decision"
       = Some match LlmJson.get d "decision" with
              | Some v => v
              | None => LlmJson.Str "unknown"
              end
    /\ (forall key, key <> "decision"%string -> key <> "confidence"%string ->
        LlmJson.get d2 key = LlmJson.get d key)
    /\ with_required_fields d
       = match float conf with
         | LlmJson.Converted c =>
             Some (LlmJson.setitem d2 "confidence"
                     (LlmJson.Float
                        (LlmJson.float_max (LlmJson.Finite 0)
                           (LlmJson.float_min (LlmJson.Finite 1) c))))
         | LlmJson.Refused =>
             Some (LlmJson.setitem d2 "confidence"
                     (LlmJson.Float (LlmJson.Finite (1 # 2))))
         | LlmJson.Overflows => None
         end.
Proof.
  set (d1 := LlmJson.add_missing d "decision").
  set (d2 := LlmJson.add_missing d1 "confidence").
  assert (Hc : LlmJson.get d2 "confidence"
               = Some match LlmJson.get d "confidence" with
                      | Some v => v
                      | None => LlmJson.Float (LlmJson.Finite (1 # 2))
                      end).
  { unfold d2. rewrite get_add_missing_same. unfold d1.
    rewrite get_add_missing_other by discriminate. reflexivity. }
  exists d2, match LlmJson.get d "confidence" with
             | Some v => v
             | None => LlmJson.Float (LlmJson.Finite (1 # 2))
             end.
  split; [exact Hc|]. split; [reflexivity|]. split; [|split].
  - unfold d2. rewrite get_add_missing_other by discriminate.
    unfold d1. now rewrite get_add_missing_same.
  - intros key Hd Hcf. unfold d2, d1.
    now rewrite !get_add_missing_other by assumption.
  - unfold LlmJson.with_required_fields, LlmJson.required_fields.
    cbn [fold_left]. fold d1. fold d2. rewrite Hc. reflexivity.
Qed.

(** What every completed answer has. *)
Lemma with_required_fields_range (d completed : LlmJson.dict) :
  with_required_fields d = Some completed ->
  LlmJson.confidence_in_range completed
  /\ LlmJson.get completed "decision" <> None.
Proof.
  destruct (with_required_fields_inv d)
    as (d2 & conf & Hc & Hconf & Hdec & Hother & ->).
  destruct (float conf) as [c| |]; intros [= <-].
  - split.
    + destruct (clamp_in_range c) as (x & Hx & Hr).
      exists x. now rewrite get_setitem_same, Hx.
    + rewrite get_setitem_other, Hdec by discriminate. discriminate.
  - split.
    + exists (1 # 2)%Q. rewrite get_setitem_same. split; [reflexivity|].
      split; unfold Qle; cbn; lia.
    + rewrite get_setitem_other, Hdec by discriminate. discriminate.
Qed.

End RequiredFields.

(** X19.  Completing a parsed answer (lines 100-111) leaves a finite
    confidence between 0 and 1 and a decision: a decision of the answer is
    kept and a missing one becomes "unknown"; a missing confidence becomes
    0.5 and a NaN becomes 1; no other key changes.  The completion raises
    only for a confidence that is an integer too large for a float. *)
Theorem with_required_fields_completes
  (float_of_int : Z -> option LlmJson.pyfloat)
  (float_of_str : string -> option LlmJson.pyfloat) (d : LlmJson.dict) :
  match LlmJson.with_required_fields float_of_int float_of_str d with
  | Some completed =>
      LlmJson.confidence_in_range completed
      /\ LlmJson.get completed "decision"
         = Some match LlmJson.get d "decision" with
                | Some v => v
                | None => LlmJson.Str "unknown"
                end
      /\ (forall key, key <> "decision"%string -> key <> "confidence"%string ->
          LlmJson.get completed key = LlmJson.get d key)
      /\ (LlmJson.get d "confidence" = None ->
          LlmJson.get completed "confidence"
          = Some (LlmJson.Float (LlmJson.Finite (1 # 2))))
      /\ (LlmJson.get d "confidence" = Some (LlmJson.Float LlmJson.NaN) ->
          LlmJson.get completed "confidence"
          = Some (LlmJson.Float (LlmJson.Finite 1)))
  | None =>
      exists n, LlmJson.get d "confidence" = Some (LlmJson.Int n)
                /\ float_of_int n = None
  end.
Proof.
  destruct (with_required_fields_inv float_of_int float_of_str d)
    as (d2 & conf & Hc & Hconf & Hdec & Hother & ->).
  destruct (LlmJson.float float_of_int float_of_str conf) as [c| |] eqn:Hf.
  - split; [|split; [|split; [|split]]].
    + destruct (clamp_in_range c) as (x & Hx & Hr).
      exists x. now rewrite get_setitem_same, Hx.
    + now rewrite get_setitem_other by discriminate.
    + intros key Hd Hcf. rewrite get_setitem_other by assumption.
      now apply Hother.
    + intros Hnone. rewrite Hnone in Hconf. subst conf. cbn in Hf.
      injection Hf as <-. now rewrite get_setitem_same.
    + intros Hnan. rewrite Hnan in Hconf. subst conf. cbn in Hf.
      injection Hf as <-. now rewrite get_setitem_same.
  - split; [|split; [|split; [|split]]].
    + exists (1 # 2)%Q. rewrite get_setitem_same. split; [reflexivity|].
      split; unfold Qle; cbn; lia.
    + now rewrite get_setitem_other by discriminate.
    + intros key Hd Hcf. rewrite get_setitem_other by assumption.
      now apply Hother.
    + intros _. apply get_setitem_same.
    + intros Hnan. rewrite Hnan in Hconf. subst conf. discriminate Hf.
  - destruct conf as [|b|n|x|s|items|members]; cbn in Hf; try discriminate.
    + exists n. split.
      * destruct (LlmJson.get d "confidence"); [congruence|discriminate].
      * destruct (float_of_int n); [discriminate|reflexivity].
    + destruct (float_of_str s); discriminate.
Qed.

(** X20.  Whatever the model answers, a parsed object that [call_gemini]
    returns has a decision and a finite confidence between 0 and 1, and a
    fallback has the confidence 0.5. *)
Theorem call_gemini_confidence_in_range
  (float_of_int : Z -> option LlmJson.pyfloat)
  (float_of_str : string -> option LlmJson.pyfloat)
  (json_loads : string -> LlmJson.loaded)
  (GEMINI_API_KEY : option string)
  (generate_content : string -> string -> Llm.Generated)
  (query : string) (chunks : list string) :
  match LlmJson.call_gemini float_of_int float_of_str json_loads
          GEMINI_API_KEY generate_content query chunks with
  | Llm.ParsedResponse _ parsed =>
      LlmJson.confidence_in_range parsed
      /\ LlmJson.get parsed "decision" <> None
  | Llm.FallbackResponse _ fallback =>
      Llm.confidence fallback = (5 / 10)%R
      /\ Llm.decision fallback = "processed"%string
  | Llm.ErrorResponse _ _ => True
  end.
Proof.
  unfold LlmJson.call_gemini.
  destruct GEMINI_API_KEY as [[|k0 k]|]; [exact I| |exact I].
  destruct (generate_content _ query) as [e|response_text]; [exact I|].
  unfold LlmJson.parse_answer.
  destruct response_text as [|c0 r0]; [exact I|].
  destruct (_ || _); [split; reflexivity|].
  destruct (json_loads _) as [parsed| |e]; [|split; reflexivity|exact I].
  destruct (LlmJson.with_required_fields float_of_int float_of_str parsed)
    as [completed|] eqn:Hw; [|exact I].
  exact (with_required_fields_range float_of_int float_of_str _ _ Hw).
Qed.
